(** * genji: document streams, logical operators, the table catalog and Open

    A shallow embedding of these pieces of the genji code base:

    - [document/iterator.go]: [Iterator], [Stream] and its operators
      ([Pipe], [Map], [Filter], [Limit], [Offset], [Append], [Count], [First]),
      [IteratorToCSV] and [IteratorToJSON], and [Append] on the arrays
      that streams share;
    - [sql/query/expr]: the logical operators [AndOp] and [OrOp];
    - [database]: [tableConfigStore] and [indexStore] ([Insert], [Replace],
      [Get], [Delete]);
    - the root package: [Open];
    - [generator]: [readPackage], [readTargets] and [selectImports].

    Go closures that own mutable variables are modelled by explicit state
    passing: a callback [func(Document) error] that updates captured
    variables of type [S] is a function [Document -> S -> S * error]. *)

From Stdlib Require Import ZArith List String Ascii Lia Bool.
From stdpp Require Import base option list gmap strings.

Import ListNotations.
Local Open Scope Z_scope.
Local Open Scope list_scope.

(** ** Go's [error] values

    An [error] is an interface value: [None] is Go's [nil], and the
    sentinels are compared by identity, as [err == ErrStreamClosed]
    does. *)

Inductive Err : Type :=
| ErrStreamClosed                 (* document.ErrStreamClosed *)
| ErrKeyNotFound                  (* engine.ErrKeyNotFound *)
| ErrTableAlreadyExists           (* database.ErrTableAlreadyExists *)
| ErrTableNotFound                (* database.ErrTableNotFound *)
| ErrOther (msg : string).        (* any other error value *)

Definition error : Type := option Err.

Definition is_ErrStreamClosed (err : error) : bool :=
  match err with
  | Some ErrStreamClosed => true
  | _ => false
  end.

(** [err != nil]. *)
Definition is_Some_b (err : error) : bool :=
  match err with
  | Some _ => true
  | None => false
  end.

Definition is_ErrKeyNotFound (err : error) : bool :=
  match err with
  | Some ErrKeyNotFound => true
  | _ => false
  end.

(** Go's [int] (64 bits): the value of an arithmetic result after
    wrap-around. *)
Definition max_int : Z := 2 ^ 63 - 1.
Definition min_int : Z := - 2 ^ 63.
Definition wrap_int (z : Z) : Z := (z + 2 ^ 63) mod 2 ^ 64 - 2 ^ 63.

(** ** Iterators and streams *)

Section Streams.

(** The documents that travel through a stream. A [Document] is a
    non-nil document: iterators are taken to produce no nil document,
    and the nil document only occurs as the result of a stream
    operator, where it means that the document is dropped. Iterators
    and functions passed as arguments are non-nil as well. *)
Context {Document : Type}.

(** [for range] over a slice, calling [step] on each element and
    returning at the first non-nil error: the loop of
    [documentsIterator.Iterate] and of [multiIterator.Iterate]. *)
Definition range_until {A S : Type} (step : A -> S -> S * error)
  : list A -> S -> S * error :=
  fix loop (l : list A) (st : S) : S * error :=
    match l with
    | [] => (st, None)
    | x :: l' =>
        let '(st', err) := step x st in
        match err with
        | Some _ => (st', err)
        | None => loop l' st'
        end
    end.

(** [type StreamOperator func() func(r Document) (Document, error)].
    Calling the operator creates a closure with fresh local variables
    ([op_new]); calling the closure on a document ([op_fn]) may update
    them and returns a document (or nil) and an error. *)
Record StreamOperator : Type := mkStreamOperator {
  op_state : Type;
  op_new : op_state;
  op_fn : Document -> op_state -> op_state * (option Document * error)
}.

(** The implementations of the [Iterator] interface in the package:
    [documentsIterator], [Stream] (a struct with fields [it] and [op],
    either of which may be nil) and [multiIterator]. *)
#[local] Unset Elimination Schemes.
Inductive Iterator : Type :=
| documentsIterator (rr : list Document)
| StreamIterator (it : option Iterator) (op : option StreamOperator)
| multiIterator (iterators : list Iterator).
#[local] Set Elimination Schemes.

Record Stream : Type := mkStream {
  it : option Iterator;
  op : option StreamOperator
}.

(** A [Stream] used as an [Iterator]. *)
Definition Stream_as_Iterator (s : Stream) : Iterator :=
  StreamIterator (it s) (op s).

(** The function literal that [Stream.Iterate] hands to the underlying
    iterator: apply [opFn], return its error, skip a nil document,
    otherwise call [fn]. The state pairs the variables of the operator
    closure with those of [fn]. *)
Definition pipe_fn {S : Type} (o : StreamOperator)
    (fn : Document -> S -> S * error)
    (r : Document) (st : op_state o * S) : (op_state o * S) * error :=
  let '(os, s) := st in
  let '(os', (r', err)) := op_fn o r os in
  match err with
  | Some _ => ((os', s), err)
  | None =>
      match r' with
      | None => ((os', s), None)
      | Some d => let '(s', err') := fn d s in ((os', s'), err')
      end
  end.

(** [Iterate] of each implementation. *)
Fixpoint Iterate (i : Iterator) {S : Type}
    (fn : Document -> S -> S * error) (st : S) {struct i} : S * error :=
  match i with
  | documentsIterator rr => range_until fn rr st
  | StreamIterator None _ => (st, None)
  | StreamIterator (Some i') None => Iterate i' fn st
  | StreamIterator (Some i') (Some o) =>
      let '((_, st'), err) := Iterate i' (pipe_fn o fn) (op_new o, st) in
      if is_ErrStreamClosed err then (st', None) else (st', err)
  | multiIterator iterators =>
      range_until (fun i' => Iterate i' fn) iterators st
  end.

Definition Stream_Iterate (s : Stream) {S : Type}
    (fn : Document -> S -> S * error) (st : S) : S * error :=
  Iterate (Stream_as_Iterator s) fn st.

Definition NewIterator (documents : list Document) : Iterator :=
  documentsIterator documents.

Definition NewStream (i : Iterator) : Stream :=
  {| it := Some i; op := None |}.

Definition Pipe (s : Stream) (o : StreamOperator) : Stream :=
  {| it := Some (Stream_as_Iterator s); op := Some o |}.

(** The operator closures of [Map], [Filter], [Limit] and [Offset].
    [Limit] and [Offset] declare a counter inside the operator, so
    each iteration starts counting from zero. The functions given to
    [Map] and [Filter] are taken to have no effect on captured
    variables. *)
Definition map_op (fn : Document -> option Document * error)
  : StreamOperator :=
  {| op_state := unit; op_new := tt;
     op_fn := fun r _ => (tt, fn r) |}.

Definition filter_op (fn : Document -> bool * error) : StreamOperator :=
  {| op_state := unit; op_new := tt;
     op_fn := fun r _ =>
       let '(ok, err) := fn r in
       match err with
       | Some _ => (tt, (None, err))
       | None => if ok then (tt, (Some r, None)) else (tt, (None, None))
       end |}.

Definition limit_op (n : Z) : StreamOperator :=
  {| op_state := Z; op_new := 0;
     op_fn := fun r count =>
       if count <? n then (wrap_int (count + 1), (Some r, None))
       else (count, (None, Some ErrStreamClosed)) |}.

Definition offset_op (n : Z) : StreamOperator :=
  {| op_state := Z; op_new := 0;
     op_fn := fun r skipped =>
       if skipped <? n then (wrap_int (skipped + 1), (None, None))
       else (skipped, (Some r, None)) |}.

Definition Map (s : Stream) (fn : Document -> option Document * error)
  : Stream :=
  Pipe s (map_op fn).

Definition Filter (s : Stream) (fn : Document -> bool * error) : Stream :=
  Pipe s (filter_op fn).

Definition Limit (s : Stream) (n : Z) : Stream := Pipe s (limit_op n).

Definition Offset (s : Stream) (n : Z) : Stream := Pipe s (offset_op n).

(** [Append], on the iterators that the streams hold: the iterators
    of the result when the call returns, from those that [s] and [i]
    hold then. The type assertion [s.it.(multiIterator)] fails on a
    nil [s.it]. Go's [append] may write [i] into the backing array of
    the slice of [s], which other streams can share: [shared.Append]
    is the call on the arrays, and [Append_reads] relates the two. *)
Definition Append (s : Stream) (i : Iterator) : Stream :=
  match it s with
  | Some (multiIterator iterators) =>
      {| it := Some (multiIterator (iterators ++ [i])); op := op s |}
  | _ =>
      {| it := Some (multiIterator [Stream_as_Iterator s; i]); op := op s |}
  end.

(** The callback of [Count]: it increments the captured [counter]. *)
Definition count_fn (r : Document) (counter : Z) : Z * error :=
  (wrap_int (counter + 1), None).

Definition Count (s : Stream) : Z * error :=
  Stream_Iterate s count_fn 0.

(** The callback of [First]: it assigns the result [r] and stops. *)
Definition first_fn (rec : Document) (r : option Document)
  : option Document * error :=
  (Some rec, Some ErrStreamClosed).

Definition First (s : Stream) : option Document * error :=
  let '(r, err) := Stream_Iterate s first_fn None in
  if is_ErrStreamClosed err then (r, None) else (r, err).

(** The documents an iterator passes to a callback that accepts every
    one of them, in order, and the error the iteration ends with. *)
Definition collect_fn (r : Document) (seen : list Document)
  : list Document * error :=
  (seen ++ [r], None).

Definition collect (i : Iterator) : list Document * error :=
  Iterate i collect_fn [].

(** Structural induction over iterators, through the slice of a
    [multiIterator]. *)
Section Induction.
Variable P : Iterator -> Prop.
Hypothesis P_documents : forall rr, P (documentsIterator rr).
Hypothesis P_zero : forall o, P (StreamIterator None o).
Hypothesis P_stream : forall i o, P i -> P (StreamIterator (Some i) o).
Hypothesis P_multi : forall l, Forall P l -> P (multiIterator l).

Fixpoint Iterator_induction (i : Iterator) : P i :=
  match i with
  | documentsIterator rr => P_documents rr
  | StreamIterator None o => P_zero o
  | StreamIterator (Some i') o => P_stream i' o (Iterator_induction i')
  | multiIterator l =>
      P_multi l
        ((fix all (l : list Iterator) : Forall P l :=
            match l with
            | [] => @List.Forall_nil _ P
            | x :: l' =>
                @List.Forall_cons _ P x l' (Iterator_induction x) (all l')
            end) l)
  end.
End Induction.

End Streams.

Arguments StreamOperator : clear implicits.
Arguments Iterator : clear implicits.
Arguments Stream : clear implicits.

(** ** Predicates on iterators and relations between two iterations *)

Section StreamRelations.

Context {Document : Type}.

(** An operator that raises no error of its own: every call returns
    nil or the stop signal [ErrStreamClosed]. *)
Definition stops_only (err : error) : Prop :=
  err = None \/ err = Some ErrStreamClosed.

Definition never_fails (o : StreamOperator Document) : Prop :=
  forall r os, stops_only (snd (snd (op_fn o r os))).

(** No operator anywhere inside the iterator raises an error of its
    own. *)
Fixpoint no_failure (i : Iterator Document) : Prop :=
  match i with
  | documentsIterator _ => True
  | StreamIterator None _ => True
  | StreamIterator (Some i') None => no_failure i'
  | StreamIterator (Some i') (Some o) => no_failure i' /\ never_fails o
  | multiIterator iterators =>
      (fix all (l : list (Iterator Document)) : Prop :=
         match l with
         | [] => True
         | x :: l' => no_failure x /\ all l'
         end) iterators
  end.

(** Two runs of callbacks on states related by [Rs] either end with
    the same error in states related by [Rs] again, or have parted and
    reached states related by [Rt]. *)
Definition sim_out {S1 S2 : Type} (Rs Rt : S1 -> S2 -> Prop)
    (r1 : S1 * error) (r2 : S2 * error) : Prop :=
  (snd r1 = snd r2 /\ Rs (fst r1) (fst r2)) \/ Rt (fst r1) (fst r2).

(** The same, for a second callback that parts from the first only by
    returning [ErrStreamClosed] ([stopped]), and for the iteration that
    then ends with nil or [ErrStreamClosed] ([stop_out]). *)
Definition stopped {S1 S2 : Type} (Rs Rt : S1 -> S2 -> Prop)
    (r1 : S1 * error) (r2 : S2 * error) : Prop :=
  (snd r1 = snd r2 /\ Rs (fst r1) (fst r2))
  \/ (snd r2 = Some ErrStreamClosed /\ Rt (fst r1) (fst r2)).

Definition stop_out {S1 S2 : Type} (Rs Rt : S1 -> S2 -> Prop)
    (r1 : S1 * error) (r2 : S2 * error) : Prop :=
  (snd r1 = snd r2 /\ Rs (fst r1) (fst r2))
  \/ (stops_only (snd r2) /\ Rt (fst r1) (fst r2)).

(** An iterator that reads a single source: no [multiIterator] on the
    way down to the documents. *)
Fixpoint linear (i : Iterator Document) : Prop :=
  match i with
  | documentsIterator _ => True
  | StreamIterator None _ => True
  | StreamIterator (Some i') _ => linear i'
  | multiIterator _ => False
  end.

(** The documents [log] that an iterator has passed so far, against
    the variables of [Offset(n)], of [Limit(m)] and of the collecting
    callback behind them: [skipped], [count] and the documents
    received. While [Limit] has not stopped the stream: *)
Definition offset_limit_sync (n m : Z) (log : list Document)
    (st : Z * (Z * list Document)) : Prop :=
  fst st = Z.min n (Z.of_nat (length log)) /\
  snd (snd st) = drop (Z.to_nat n) log /\
  fst (snd st) = Z.of_nat (length (snd (snd st))) /\
  fst (snd st) <= m.

(** and once it has: *)
Definition offset_limit_done (n m : Z) (log : list Document)
    (st : Z * (Z * list Document)) : Prop :=
  fst st = n /\ fst (snd st) = m /\ n <= Z.of_nat (length log) /\
  snd (snd st) = take (Z.to_nat m) (drop (Z.to_nat n) log) /\
  m <= Z.of_nat (length (drop (Z.to_nat n) log)).

(** The same for [Limit(n)] and the callback of [Count]: [count] and
    [counter]. *)
Definition limit_count_sync (n : Z) (log : list Document) (st : Z * Z)
  : Prop :=
  fst st = Z.of_nat (length log) /\ snd st = fst st /\ fst st <= n.

Definition limit_count_done (n : Z) (log : list Document) (st : Z * Z)
  : Prop :=
  fst st = n /\ snd st = n /\ n <= Z.of_nat (length log).

(** The streams for which a stop signal from the caller's side cannot
    turn into an error: either no operator raises an error of its own,
    or the stream reads a single source and iterates to its end without
    error. *)
Definition runs_clean (i : Iterator Document) : Prop :=
  no_failure i \/ (linear i /\ snd (collect i) = None).

End StreamRelations.

(** ** The logical operators of [sql/query/expr] *)

Module expr.

(** [scanner.Token], as far as the operators name it. *)
Inductive Token : Type := AND | OR.

Section Operators.

(** [document.Value] with its method [IsTruthy], the evaluation
    context [EvalStack] and the two boolean literals of the package
    are declared in other files; they are parameters. *)
Context {Value EvalStack : Type}.
Variable IsTruthy : Value -> bool.
Variable trueLitteral falseLitteral : Value.

(** The [Expr] interface. *)
Record Expr : Type := mkExpr {
  Eval : EvalStack -> Value * error
}.

Record simpleOperator : Type := mkSimpleOperator {
  a : Expr;
  b : Expr;
  Tok : Token
}.

Definition AndOp_Eval (op : simpleOperator) (ctx : EvalStack)
  : Value * error :=
  let '(s, err) := Eval (a op) ctx in
  if is_Some_b err || negb (IsTruthy s) then (falseLitteral, err)
  else
    let '(s, err) := Eval (b op) ctx in
    if is_Some_b err || negb (IsTruthy s) then (falseLitteral, err)
    else (trueLitteral, None).

Definition OrOp_Eval (op : simpleOperator) (ctx : EvalStack)
  : Value * error :=
  let '(s, err) := Eval (a op) ctx in
  if is_Some_b err then (falseLitteral, err)
  else if IsTruthy s then (trueLitteral, None)
  else
    let '(s, err) := Eval (b op) ctx in
    if is_Some_b err then (falseLitteral, err)
    else if IsTruthy s then (trueLitteral, None)
    else (falseLitteral, None).

Definition And (a b : Expr) : Expr :=
  {| Eval := AndOp_Eval {| a := a; b := b; Tok := AND |} |}.

Definition Or (a b : Expr) : Expr :=
  {| Eval := OrOp_Eval {| a := a; b := b; Tok := OR |} |}.

End Operators.

End expr.

(** ** The storage engine, as the catalog uses it *)

(** Go's [[]byte]: a sequence of 8-bit characters. The conversion
    [[]byte(tableName)] keeps the bytes of the string. *)
Definition bytes : Type := string.

Module engine.

(** The [Store] interface of the engine: the three methods the catalog
    calls, over the contents [St] of the store. *)
Class Store (St : Type) : Type := {
  Get : bytes -> St -> bytes * error;
  Put : bytes -> bytes -> St -> St * error;
  Delete : bytes -> St -> St * error
}.

(** Modelled from the spec: the implementations of [engine.Store] (the
    bolt and badger engines) are missing. The store contract reads:
    [Store.Put(key, value)], [Store.Get(key) -> value | ErrKeyNotFound],
    [Store.Delete(key) -> error | ErrKeyNotFound], with
    last-writer-wins for Put and Delete. This store is a finite map and
    raises no other error. *)
#[export] Instance mapStore : Store (gmap string bytes) := {|
  Get := fun key m =>
    match m !! key with
    | Some v => (v, None)
    | None => (EmptyString, Some ErrKeyNotFound)
    end;
  Put := fun key v m => (<[key := v]> m, None);
  Delete := fun key m =>
    match m !! key with
    | Some _ => (delete key m, None)
    | None => (m, Some ErrKeyNotFound)
    end
|}.

End engine.

(** ** The document values and their encoding, as the catalog uses them *)

Module document.

(** What the catalog calls of the packages [document] and
    [document/encoding]: the constructors and conversions of [Value],
    [encoding.EncodeDocument] on a field buffer, and
    [encoding.EncodedDocument(v).GetByField]. The catalog is written
    against this interface. *)
Class API : Type := {
  Value : Type;
  NewStringValue : string -> Value;
  NewUint8Value : Z -> Value;
  NewInt64Value : Z -> Value;
  ConvertToString : Value -> string * error;
  ConvertToUint8 : Value -> Z * error;
  ConvertToInt64 : Value -> Z * error;
  EncodeDocument : list (string * Value) -> bytes * error;
  GetByField : string -> bytes -> Value * error
}.

(** [document.FieldBuffer]: the fields in the order they were added. *)
Definition FieldBuffer {api : API} : Type := list (string * Value).

Definition Add {api : API} (fb : FieldBuffer) (field : string) (v : Value)
  : FieldBuffer :=
  fb ++ [(field, v)].

(** A reference implementation of the interface, for the kinds of
    value the catalog stores. *)
Module reference.

(** Modelled from the spec: [document.Value] is missing. The data
    model makes a value a kind with its typed payload; these are the
    kinds Null, Int64, Uint8 and Text. *)
Inductive Value : Type :=
| NullValue
| Int64Value (z : Z)
| Uint8Value (z : Z)
| TextValue (s : string).

(** The kind tags number the kinds in the order the data model lists
    them. *)
Definition tag (v : Value) : Z :=
  match v with
  | NullValue => 0
  | Int64Value _ => 5
  | Uint8Value _ => 6
  | TextValue _ => 11
  end.

Definition byte (z : Z) : ascii := ascii_of_N (Z.to_N (z mod 256)).
Definition code (c : ascii) : Z := Z.of_N (N_of_ascii c).

Fixpoint uvarint (fuel : nat) (n : Z) : bytes :=
  match fuel with
  | O => EmptyString
  | S fuel' =>
      if n <? 128 then String (byte n) EmptyString
      else String (byte (128 + n mod 128)) (uvarint fuel' (n / 128))
  end.

Definition put_uvarint (n : Z) : bytes := uvarint 10 n.

Fixpoint read_uvarint (bs : bytes) : option (Z * bytes) :=
  match bs with
  | EmptyString => None
  | String c rest =>
      if code c <? 128 then Some (code c, rest)
      else
        match read_uvarint rest with
        | Some (hi, rest') => Some (code c - 128 + 128 * hi, rest')
        | None => None
        end
  end.

Fixpoint big_endian (width : nat) (z : Z) : bytes :=
  match width with
  | O => EmptyString
  | S width' =>
      String (byte (z / 256 ^ Z.of_nat width')) (big_endian width' z)
  end.

Fixpoint read_big_endian (width : nat) (acc : Z) (bs : bytes)
  : option (Z * bytes) :=
  match width with
  | O => Some (acc, bs)
  | S width' =>
      match bs with
      | EmptyString => None
      | String c rest => read_big_endian width' (256 * acc + code c) rest
      end
  end.

Fixpoint read_bytes (n : nat) (bs : bytes) : option (bytes * bytes) :=
  match n with
  | O => Some (EmptyString, bs)
  | S n' =>
      match bs with
      | EmptyString => None
      | String c rest =>
          match read_bytes n' rest with
          | Some (s, rest') => Some (String c s, rest')
          | None => None
          end
      end
  end.

Definition put_text (s : string) : bytes :=
  String.append (put_uvarint (Z.of_nat (String.length s))) s.

Definition read_text (bs : bytes) : option (string * bytes) :=
  match read_uvarint bs with
  | Some (n, rest) => read_bytes (Z.to_nat n) rest
  | None => None
  end.

Definition encode_value (v : Value) : bytes :=
  String (byte (tag v))
    match v with
    | NullValue => EmptyString
    | Int64Value z => big_endian 8 (z mod 2 ^ 64)
    | Uint8Value z => big_endian 1 z
    | TextValue s => put_text s
    end.

Definition read_value (bs : bytes) : option (Value * bytes) :=
  match bs with
  | EmptyString => None
  | String c rest =>
      if code c =? 0 then Some (NullValue, rest)
      else if code c =? 5 then
        match read_big_endian 8 0 rest with
        | Some (u, rest') =>
            Some (Int64Value (if u <? 2 ^ 63 then u else u - 2 ^ 64), rest')
        | None => None
        end
      else if code c =? 6 then
        match read_big_endian 1 0 rest with
        | Some (u, rest') => Some (Uint8Value u, rest')
        | None => None
        end
      else if code c =? 11 then
        match read_text rest with
        | Some (s, rest') => Some (TextValue s, rest')
        | None => None
        end
      else None
  end.

Definition encode_field (f : string * Value) : bytes :=
  String.append (put_text (fst f)) (encode_value (snd f)).

Definition malformed : error := Some (ErrOther "malformed document").
Definition field_not_found : error := Some (ErrOther "field not found").
Definition cannot_convert : error := Some (ErrOther "cannot convert").

(** The random-access decoder: walk the [n] fields of the header until
    the name matches. *)
Fixpoint find_field (n : nat) (field : string) (bs : bytes)
  : Value * error :=
  match n with
  | O => (NullValue, field_not_found)
  | S n' =>
      match read_text bs with
      | Some (name, rest) =>
          match read_value rest with
          | Some (v, rest') =>
              if String.eqb name field then (v, None)
              else find_field n' field rest'
          | None => (NullValue, malformed)
          end
      | None => (NullValue, malformed)
      end
  end.

(** Modelled from the spec: the conversions of [document.Value],
    [encoding.EncodeDocument] and [EncodedDocument.GetByField] are
    missing. Conversions between numeric kinds never fail when
    widening and fail out of range when narrowing. An encoded
    document is a varint field count, then for each field a varint
    length of the name, the bytes of the name, one byte of kind tag
    and the payload of the kind: fixed width (here big-endian) for
    integers, length-prefixed for text. [GetByField] is the
    random-access decoder, which walks the fields from the header. *)
#[export] Instance api : API := {|
  document.Value := Value;
  NewStringValue := TextValue;
  NewUint8Value := Uint8Value;
  NewInt64Value := Int64Value;
  ConvertToString := fun v =>
    match v with
    | TextValue s => (s, None)
    | _ => (EmptyString, cannot_convert)
    end;
  ConvertToUint8 := fun v =>
    match v with
    | Uint8Value z => (z, None)
    | Int64Value z =>
        if (0 <=? z) && (z <? 256) then (z, None) else (0, cannot_convert)
    | _ => (0, cannot_convert)
    end;
  ConvertToInt64 := fun v =>
    match v with
    | Int64Value z | Uint8Value z => (z, None)
    | _ => (0, cannot_convert)
    end;
  EncodeDocument := fun fb =>
    (String.append (put_uvarint (Z.of_nat (List.length fb)))
       (String.concat EmptyString (List.map encode_field fb)), None);
  GetByField := fun field bs =>
    match read_uvarint bs with
    | Some (n, rest) => find_field (Z.to_nat n) field rest
    | None => (NullValue, malformed)
    end
|}.

End reference.

End document.

(** ** The table catalog: [tableConfigStore] *)

Module database.

Import document.

(** [uint8(x)]: conversion to an unsigned byte. *)
Definition uint8 (z : Z) : Z := z mod 256.

(** [PrimaryKeyType] is a [document.ValueType], an unsigned byte;
    [lastKey] is an [int64]. *)
Record TableConfig : Type := mkTableConfig {
  PrimaryKeyName : string;
  PrimaryKeyType : Z;
  lastKey : Z
}.

Definition wf_TableConfig (cfg : TableConfig) : Prop :=
  0 <= PrimaryKeyType cfg < 256 /\ - 2 ^ 63 <= lastKey cfg < 2 ^ 63.

Section tableConfigStore.

Context {St : Type} {store : engine.Store St} {api : API}.

(** The field buffer that [Insert] and [Replace] build from a
    configuration. *)
Definition configFields (cfg : TableConfig) : FieldBuffer :=
  let fb := [] in
  let fb := Add fb "PrimaryKeyName" (NewStringValue (PrimaryKeyName cfg)) in
  let fb :=
    Add fb "PrimaryKeyType" (NewUint8Value (uint8 (PrimaryKeyType cfg))) in
  let fb := Add fb "lastKey" (NewInt64Value (lastKey cfg)) in
  fb.

(** The field [t.st] is threaded as the contents [st] of the store. *)
Definition Insert (tableName : string) (cfg : TableConfig) (st : St)
  : St * error :=
  let key : bytes := tableName in
  let '(_, err) := engine.Get key st in
  match err with
  | None => (st, Some ErrTableAlreadyExists)
  | Some _ =>
      if negb (is_ErrKeyNotFound err) then (st, err)
      else
        let '(v, err) := EncodeDocument (configFields cfg) in
        match err with
        | Some _ => (st, err)
        | None => engine.Put key v st
        end
  end.

(** [cfg] is a pointer: [None] is the nil pointer, and the result
    [None] is the panic of dereferencing it. *)
Definition Replace (tableName : string) (cfg : option TableConfig)
    (st : St) : option (St * error) :=
  let key : bytes := tableName in
  let '(_, err) := engine.Get key st in
  if is_ErrKeyNotFound err then Some (st, Some ErrTableNotFound)
  else
    match err with
    | Some _ => Some (st, err)
    | None =>
        match cfg with
        | None => None
        | Some cfg =>
            let '(v, err) := EncodeDocument (configFields cfg) in
            match err with
            | Some _ => Some (st, err)
            | None => Some (engine.Put key v st)
            end
        end
    end.

Definition Get (tableName : string) (st : St)
  : option TableConfig * error :=
  let key : bytes := tableName in
  let '(v, err) := engine.Get key st in
  if is_ErrKeyNotFound err then (None, Some ErrTableNotFound)
  else
    match err with
    | Some _ => (None, err)
    | None =>
        let r := v in
        let '(f, err) := GetByField "PrimaryKeyName" r in
        match err with
        | Some _ => (None, err)
        | None =>
        let '(name, err) := ConvertToString f in
        match err with
        | Some _ => (None, err)
        | None =>
        let '(f, err) := GetByField "PrimaryKeyType" r in
        match err with
        | Some _ => (None, err)
        | None =>
        let '(tp, err) := ConvertToUint8 f in
        match err with
        | Some _ => (None, err)
        | None =>
        let '(f, err) := GetByField "lastKey" r in
        match err with
        | Some _ => (None, err)
        | None =>
        let '(last, err) := ConvertToInt64 f in
        match err with
        | Some _ => (None, err)
        | None =>
            (Some {| PrimaryKeyName := name;
                     PrimaryKeyType := tp;
                     lastKey := last |}, None)
        end end end end end end
    end.

Definition Delete (tableName : string) (st : St) : St * error :=
  let key : bytes := tableName in
  let '(st', err) := engine.Delete key st in
  if is_ErrKeyNotFound err then (st', Some ErrTableNotFound)
  else (st', err).

(** What [Get] after [Insert] needs of the encoding, for one
    configuration and its encoded bytes [v]: the three fields read
    back from [v] are the values that were added, and each converts
    back to what it was built from. *)
Definition round_trips (cfg : TableConfig) (v : bytes) : Prop :=
  EncodeDocument (configFields cfg) = (v, None) /\
  GetByField "PrimaryKeyName" v
    = (NewStringValue (PrimaryKeyName cfg), None) /\
  GetByField "PrimaryKeyType" v
    = (NewUint8Value (uint8 (PrimaryKeyType cfg)), None) /\
  GetByField "lastKey" v = (NewInt64Value (lastKey cfg), None) /\
  ConvertToString (NewStringValue (PrimaryKeyName cfg))
    = (PrimaryKeyName cfg, None) /\
  ConvertToUint8 (NewUint8Value (uint8 (PrimaryKeyType cfg)))
    = (uint8 (PrimaryKeyType cfg), None) /\
  ConvertToInt64 (NewInt64Value (lastKey cfg)) = (lastKey cfg, None).

End tableConfigStore.

End database.

(** ** [Open] *)

Module genji.

(** Unix permission bits written in octal, most significant digit
    first. *)
Definition octal (digits : list Z) : Z :=
  fold_left (fun acc d => 8 * acc + d) digits 0.

Section Open.

(** The engine constructors, the options of badger and [New] are
    declared in other packages; they are parameters. A pointer result
    is an [option]. *)
Context {Engine DB badger_Options bolt_Options Logger : Type}.
Variable badger_DefaultOptions : string -> badger_Options.
Variable WithInMemory : badger_Options -> bool -> badger_Options.
Variable WithLogger : badger_Options -> option Logger -> badger_Options.
Variable badgerengine_NewEngine : badger_Options -> Engine * error.
Variable boltengine_NewEngine :
  string -> Z -> option bolt_Options -> Engine * error.
Variable New : Engine -> option DB * error.

Definition Open (path : string) : option DB * error :=
  let '(ng, err) :=
    if String.eqb path ":memory:" then
      badgerengine_NewEngine
        (WithLogger (WithInMemory (badger_DefaultOptions "") true) None)
    else
      boltengine_NewEngine path (octal [0; 6; 6; 0]) None in
  match err with
  | Some _ => (None, err)
  | None => New ng
  end.

(** What the caller of [Open] receives for the result of an engine
    constructor: the construction error, or the engine handed to
    [New]. *)
Definition wrapped_engine (r : Engine * error) : option DB * error :=
  match r with
  | (_, Some e) => (None, Some e)
  | (ng, None) => New ng
  end.

End Open.

End genji.

(** ** Where the error of an iteration can come from *)

Section StreamErrors.

Context {Document : Type}.

(** Some operator inside the iterator returns the error [err] on some
  document, in some state of its closure. *)
Fixpoint raises (i : Iterator Document) (err : error) : Prop :=
match i with
| documentsIterator _ => False
| StreamIterator None _ => False
| StreamIterator (Some i') None => raises i' err
| StreamIterator (Some i') (Some o) =>
    raises i' err \/ exists r os, snd (snd (op_fn o r os)) = err
| multiIterator iterators =>
    (fix any (l : list (Iterator Document)) : Prop :=
       match l with
       | [] => False
       | x :: l' => raises x err \/ any l'
       end) iterators
end.

End StreamErrors.

(** ** [IteratorToCSV] and [IteratorToJSON] *)

Section IteratorExport.

(** [Document] with its method [Iterate], [Value] with [String], the
  writer of [encoding/csv] and the encoder of [encoding/json] are
  declared elsewhere; they are parameters. [fields r] stands for
  [r.Iterate] called with a function that returns nil on every field:
  the fields it passes, in order, and the error it returns. [W] is the
  state of the writer [w] together with what [cw], or [enc], has
  buffered; [json_Encode r] is [enc.Encode(jsonDocument{r})] with the
  indentation that [SetIndent] chose. *)
Context {Document Value W : Type}.
Variable fields : Document -> list (string * Value) * error.
Variable Value_String : Value -> string.
Variable csv_Write : list string -> W -> W * error.
Variable csv_Flush : W -> W.
Variable json_Encode : Document -> W -> W * error.

(** The callback of [IteratorToCSV]; it owns [line] and [cw]. *)
Definition csv_fn (r : Document) (st : list string * W)
: (list string * W) * error :=
let '(line, cw) := st in
let line := take 0 line in
let '(fs, err) := fields r in
let line :=
  fold_left (fun line fv => line ++ [Value_String (snd fv)]) fs line in
match err with
| Some _ => ((line, cw), err)
| None => let '(cw', err') := csv_Write line cw in ((line, cw'), err')
end.

Definition IteratorToCSV (w : W) (s : Iterator Document) : W * error :=
let cw := w in
let '((_, cw'), err) := Iterate s csv_fn ([], cw) in
match err with
| Some _ => (cw', err)
| None => (csv_Flush cw', None)
end.

Definition IteratorToJSON (w : W) (s : Iterator Document) : W * error :=
let enc := w in
Iterate s json_Encode enc.

(** The record that [IteratorToCSV] writes for a document. *)
Definition csv_record (r : Document) : list string :=
List.map (fun fv => Value_String (snd fv)) (fst (fields r)).

End IteratorExport.

(** ** [Append] and the array it shares

    Go's [append] writes into the backing array of its slice while the
    array has room, and the results of two calls on the same stream
    then share that array. Here an [Iterator] value is as Go holds it:
    a [multiIterator] holds a slice into an array of the heap, and
    [Append] takes the heap and returns it. *)

Module shared.

(** The iterators that a stream holds, read out of the heap: a
    [Stream] of the first part. *)
Definition Contents (Document : Type) : Type := Stream Document.

Definition mkContents {Document : Type}
    (it : option (Iterator Document))
    (op : option (StreamOperator Document)) : Contents Document :=
  {| it := it; op := op |}.

Section shared.

Context {Document : Type}.

(** A slice: the address of its backing array, its length and its
    capacity. No slice of this code is resliced, so every slice
    starts at the first cell of its array. *)
Record Slice : Type := mkSlice {
  array : nat;
  len : nat;
  cap : nat
}.

#[local] Unset Elimination Schemes.

Inductive Value : Type :=
| documentsValue (rr : list Document)
| StreamValue (it : option Value)
              (op : option (StreamOperator Document))
| multiValue (iterators : Slice).

#[local] Set Elimination Schemes.

(** The backing arrays by address. A cell holds an [Iterator]
    value or nil; an array is as long as its capacity. *)
Definition Heap : Type := list (list (option Value)).

Record Stream : Type := mkStream {
  it : option Value;
  op : option (StreamOperator Document)
}.

(** A [Stream] used as an [Iterator]. *)
Definition Stream_as_Value (s : Stream) : Value :=
  StreamValue (it s) (op s).

Definition NewIterator (documents : list Document) : Value :=
  documentsValue documents.

Definition NewStream (it : Value) : Stream :=
  {| it := Some it; op := None |}.

Definition Pipe (s : Stream) (op : StreamOperator Document) : Stream :=
  {| it := Some (Stream_as_Value s); op := Some op |}.

(** The capacity of the array that [append] allocates for a full
    slice is the runtime's choice: [grow c] for a slice of capacity
    [c], and never less than the new length. *)
Variable grow : nat -> nat.

(** [append(sl, x)]. *)
Definition append (sl : Slice) (x : Value) (h : Heap) : Slice * Heap :=
  if (len sl <? cap sl)%nat then
    ({| array := array sl; len := S (len sl); cap := cap sl |},
     alter (fun cells => <[len sl := Some x]> cells) (array sl) h)
  else
    let capacity := Nat.max (S (len sl)) (grow (cap sl)) in
    let cells :=
      take (len sl) (default [] (h !! array sl))
      ++ Some x :: replicate (capacity - S (len sl)) None in
    ({| array := length h; len := S (len sl); cap := capacity |},
     h ++ [cells]).

(** The slice literal [[]Iterator{s, it}] is an array of its own,
    of length and capacity 2. *)
Definition Append (s : Stream) (i : Value) (h : Heap) : Stream * Heap :=
  match it s with
  | Some (multiValue mr) =>
      let '(iterators, h') := append mr i h in
      ({| it := Some (multiValue iterators); op := op s |}, h')
  | _ =>
      ({| it := Some (multiValue
                        {| array := length h; len := 2; cap := 2 |});
          op := op s |},
       h ++ [[Some (Stream_as_Value s); Some i]])
  end.

(** [s.Append(i1).Append(i2)...], each call on the result of the
    one before. *)
Definition Append_all (s : Stream) (its : list Value) (h : Heap)
  : Stream * Heap :=
  fold_left (fun r i => Append (fst r) i (snd r)) its (s, h).

(** The iterators that a value holds in a heap: every slice read
    out of its array. There is none when a slice does not fit its
    array or holds a nil iterator (iterating it panics), or when the
    value holds itself, which [fuel] cuts short. *)
Fixpoint read (fuel : nat) (h : Heap) (v : Value)
  : option (Iterator Document) :=
  match fuel with
  | O => None
  | S fuel =>
      match v with
      | documentsValue rr => Some (documentsIterator rr)
      | StreamValue None o => Some (StreamIterator None o)
      | StreamValue (Some i) o =>
          i' ← read fuel h i; Some (StreamIterator (Some i') o)
      | multiValue sl =>
          cells ← h !! array sl;
          if ((len sl <=? cap sl) && (cap sl <=? length cells))%nat
          then
            iterators ← mapM (fun c => c ≫= read fuel h)
                             (take (len sl) cells);
            Some (multiIterator iterators)
          else None
      end
  end.

Definition read_Stream (fuel : nat) (h : Heap) (s : Stream)
  : option (Contents Document) :=
  match it s with
  | None => Some (mkContents None (op s))
  | Some i => i' ← read fuel h i; Some (mkContents (Some i') (op s))
  end.

End shared.

Arguments Slice : clear implicits.
Arguments Value : clear implicits.
Arguments Heap : clear implicits.
Arguments Stream : clear implicits.

End shared.

(** ** The index catalog of [database] *)

Module indexStore.

(** [indexOptions] with its field [IndexName], its encoding as a
    document and its method [ScanDocument], [buildIndexName] and the
    two sentinel errors of the package are declared in other files.
    The index catalog is written against this interface.
    [ScanDocument d o] is [o.ScanDocument(d)]: the options after the
    call and its error. [zero] is the zero value that
    [var idxopts indexOptions] declares. *)
Class API : Type := {
  indexOptions : Type;
  IndexName : indexOptions -> string;
  buildIndexName : string -> string;
  EncodeDocument : indexOptions -> bytes * error;
  ScanDocument : bytes -> indexOptions -> indexOptions * error;
  zero : indexOptions;
  ErrIndexAlreadyExists : Err;
  ErrIndexNotFound : Err
}.

Section indexStore.

Context {St : Type} {store : engine.Store St} {api : API}.

Definition Insert (cfg : indexOptions) (st : St) : St * error :=
  let key : bytes := buildIndexName (IndexName cfg) in
  let '(_, err) := engine.Get key st in
  match err with
  | None => (st, Some ErrIndexAlreadyExists)
  | Some _ =>
      if negb (is_ErrKeyNotFound err) then (st, err)
      else
        let '(v, err) := EncodeDocument cfg in
        match err with
        | Some _ => (st, err)
        | None => engine.Put key v st
        end
  end.

Definition Get (indexName : string) (st : St)
  : option indexOptions * error :=
  let key : bytes := buildIndexName indexName in
  let '(v, err) := engine.Get key st in
  if is_ErrKeyNotFound err then (None, Some ErrIndexNotFound)
  else
    match err with
    | Some _ => (None, err)
    | None =>
        let idxopts := zero in
        let '(idxopts, err) := ScanDocument v idxopts in
        match err with
        | Some _ => (None, err)
        | None => (Some idxopts, None)
        end
    end.

Definition Delete (indexName : string) (st : St) : St * error :=
  let key : bytes := buildIndexName indexName in
  let '(st', err) := engine.Delete key st in
  if is_ErrKeyNotFound err then (st', Some ErrIndexNotFound)
  else (st', err).

End indexStore.

End indexStore.

(** ** The code generator: package, targets and imports *)

Module generator.

(** [Config]: the sources, and the names of the structures to
    analyse. *)
Record Config {Reader : Type} : Type := mkConfig {
  cfg_Sources : list Reader;
  cfg_Records : list string;
  cfg_Results : list string
}.
Arguments Config : clear implicits.

Record genContext {recordContext : Type} : Type := mkGenContext {
  Pkg : string;
  Imports : list string;
  Records : list recordContext;
  Results : list recordContext
}.
Arguments genContext : clear implicits.

Section generator.

(** [ast.File], of which the code reads [Name.Name];
    [recordContext] with its method [lookupRecord], which fills its
    receiver and returns whether it found the structure; and the
    order in which [range] visits the keys of a map: they are
    parameters. [zero] is the zero value of [recordContext], of
    which [make] builds its slices. *)
Context {Reader File recordContext : Type}.
Variable Name : File -> string.
Variable lookupRecord :
  recordContext -> File -> string -> recordContext * bool * error.
Variable zero : recordContext.
Variable range_keys : gmap string Z -> list string.

(** The loop of [readPackage], from the value of [pkg]. *)
Fixpoint readPackage_loop (srcs : list File) (pkg : string)
  : string * error :=
  match srcs with
  | [] => (pkg, None)
  | src :: srcs' =>
      if negb (String.eqb pkg "") && negb (String.eqb pkg (Name src))
      then (pkg,
            Some (ErrOther "input files must belong to the same package"))
      else readPackage_loop srcs' (Name src)
  end.

Definition readPackage (g : genContext recordContext) (srcs : list File)
  : genContext recordContext * error :=
  let '(pkg, err) := readPackage_loop srcs "" in
  match err with
  | Some _ => (g, err)
  | None =>
      ({| Pkg := pkg; Imports := Imports g;
          Records := Records g; Results := Results g |}, None)
  end.

(** The inner loop of [readTargets], on the element [rc] of the
    slice: the sources are tried in order until one holds the
    structure or fails. *)
Fixpoint lookupSources (srcs : list File) (name : string)
    (rc : recordContext) : recordContext * error :=
  match srcs with
  | [] => (rc, None)
  | src :: srcs' =>
      let '(rc', ok, err) := lookupRecord rc src name in
      match err with
      | Some _ => (rc', err)
      | None => if ok then (rc', None) else lookupSources srcs' name rc'
      end
  end.

(** The outer loop, from index [i], over the names left; [recs] is
    the slice, written in place. *)
Fixpoint readNames (srcs : list File) (names : list string) (i : nat)
    (recs : list recordContext) : list recordContext * error :=
  match names with
  | [] => (recs, None)
  | name :: names' =>
      let '(rc, err) :=
        lookupSources srcs name (default zero (recs !! i)) in
      let recs := <[i := rc]> recs in
      match err with
      | Some _ => (recs, err)
      | None => readNames srcs names' (S i) recs
      end
  end.

Definition readTargets (g : genContext recordContext) (srcs : list File)
    (cfg : Config Reader) : genContext recordContext * error :=
  let records := replicate (length (cfg_Records cfg)) zero in
  let '(records, err) := readNames srcs (cfg_Records cfg) 0 records in
  let g := {| Pkg := Pkg g; Imports := Imports g;
              Records := records; Results := Results g |} in
  match err with
  | Some _ => (g, err)
  | None =>
      let results := replicate (length (cfg_Results cfg)) zero in
      let '(results, err) := readNames srcs (cfg_Results cfg) 0 results in
      ({| Pkg := Pkg g; Imports := Imports g;
          Records := Records g; Results := results |}, err)
  end.

(** [m[k]++] on a [map[string]int]. *)
Definition increment (k : string) (m : gmap string Z) : gmap string Z :=
  <[k := wrap_int (default 0 (m !! k) + 1)]> m.

Definition selectImports (g : genContext recordContext)
  : genContext recordContext :=
  let m : gmap string Z := ∅ in
  let m :=
    if (0 <? length (Records g))%nat then
      let m := increment "errors" m in
      let m := increment "github.com/asdine/genji" m in
      let m := increment "github.com/asdine/genji/field" m in
      let m := increment "github.com/asdine/genji/query" m in
      let m := increment "github.com/asdine/genji/record" m in
      let m := increment "github.com/asdine/genji/table" m in
      m
    else m in
  let m :=
    if (0 <? length (Results g))%nat then
      let m := increment "github.com/asdine/genji/record" m in
      let m := increment "github.com/asdine/genji/table" m in
      m
    else m in
  let imports :=
    fold_left (fun imports k => imports ++ [k]) (range_keys m) [] in
  {| Pkg := Pkg g; Imports := imports;
     Records := Records g; Results := Results g |}.

(** [range] visits each key of the map once, in an order of its
    own. *)
Definition visits_each_key_once : Prop :=
  forall m : gmap string Z, range_keys m ≡ₚ (map_to_list m).*1.

End generator.

End generator.

(** ** Sample inputs *)

Module samples.

Definition three : Stream nat := NewStream (NewIterator [1; 2; 3]%nat).

Definition one : Stream nat := NewStream (NewIterator [7%nat]).

(** A callback that counts its calls and asks to stop at each. *)
Definition always_stop (r : nat) (calls : Z) : Z * error :=
  (calls + 1, Some ErrStreamClosed).

Definition keep_all (r : nat) : bool * error := (true, None).

Definition identity (r : nat) : option nat * error := (Some r, None).

Definition add_ten (r : nat) : option nat * error :=
  (Some (r + 10)%nat, None).

Definition boom : error := Some (ErrOther "boom").

Definition failing (r : nat) : option nat * error := (None, boom).

Definition fails_on_four (r : nat) : option nat * error :=
  if Nat.eqb r 4 then (None, boom) else (Some r, None).

(** [NewStream(NewIterator(1, 2, 3)).Map(identity)], a stream of its
    own, read as the first iterator of an [Append]. *)
Definition appended : Stream nat :=
  Append (NewStream (Stream_as_Iterator (Map three identity)))
         (NewIterator [4%nat]).

Definition users : database.TableConfig :=
  {| database.PrimaryKeyName := "id";
     database.PrimaryKeyType := 11;
     database.lastKey := -42 |}.

Definition users_bytes : bytes :=
  fst (document.EncodeDocument
         (database.configFields (api := document.reference.api) users)).

Definition catalog : gmap string bytes := {[ "users"%string := users_bytes ]}.

(** Expressions over booleans, evaluated in an empty context. *)
Definition literal (v : bool) : @expr.Expr bool unit :=
  {| expr.Eval := fun _ => (v, None) |}.

Definition broken : @expr.Expr bool unit :=
  {| expr.Eval := fun _ => (false, boom) |}.

(** Engines that record how they were constructed: a name and a file
    mode. No constructor fails. *)
Definition badger (opts : string * bool * option unit)
  : (string * Z) * error :=
  ((if snd (fst opts) then "badger in memory" else "badger on disk", 0)%string,
   None).

Definition bolt (path : string) (mode : Z) (opts : option unit)
  : (string * Z) * error :=
  ((path, mode), None).

Definition new_db (ng : string * Z) : option (string * Z) * error :=
  (Some ng, None).

Definition Open : string -> option (string * Z) * error :=
  genji.Open (fun dir => (dir, false, Some tt))
    (fun opts b => (fst (fst opts), b, snd opts))
    (fun opts l => (fst opts, l))
    badger bolt new_db.

(** The bytes of two configurations in the reference encoding,
    written out: the number of fields, then for each field the length
    of its name, the name, the tag of its kind (11 for a text, 6 for
    a byte, 5 for an [int64]) and its payload: a length and the
    characters, one byte, or eight bytes, the most significant
    first. *)
Definition of_codes (codes : list Z) : bytes :=
  string_of_list_ascii
    (List.map (fun code => ascii_of_N (Z.to_N code)) codes).

Definition users_encoded : bytes :=
  String.concat EmptyString
    [of_codes [3; 14]; "PrimaryKeyName"; of_codes [11; 2]; "id";
     of_codes [14]; "PrimaryKeyType"; of_codes [6; 11];
     of_codes [7]; "lastKey";
     of_codes [5; 255; 255; 255; 255; 255; 255; 255; 214]]%string.

Definition users_next : database.TableConfig :=
  {| database.PrimaryKeyName := "uid";
     database.PrimaryKeyType := 3;
     database.lastKey := 7 |}.

Definition users_next_encoded : bytes :=
  String.concat EmptyString
    [of_codes [3; 14]; "PrimaryKeyName"; of_codes [11; 3]; "uid";
     of_codes [14]; "PrimaryKeyType"; of_codes [6; 3];
     of_codes [7]; "lastKey"; of_codes [5; 0; 0; 0; 0; 0; 0; 0; 7]]%string.

(** The runtime doubles the capacity of a full slice. *)
Definition double (capacity : nat) : nat := 2 * capacity.

(** A context with one record and one result. *)
Definition one_of_each : generator.genContext string :=
  {| generator.Pkg := "main"; generator.Imports := [];
     generator.Records := ["User"%string];
     generator.Results := ["Row"%string] |}.

(** Rows of named numbers, written as one digit per field; the writer
    keeps the lines it was given and whether it was flushed since. *)
Definition rows : Stream (list (string * nat)) :=
  NewStream (NewIterator [[("a"%string, 1%nat); ("b"%string, 2%nat)];
                          [("a"%string, 3%nat)]]).

Definition row_fields (r : list (string * nat))
  : list (string * nat) * error :=
  (r, None).

Definition digit (v : nat) : string :=
  String (ascii_of_nat (48 + v)) EmptyString.

Definition write_line (line : list string) (out : list (list string) * bool)
  : (list (list string) * bool) * error :=
  ((fst out ++ [line], false), None).

Definition flush (out : list (list string) * bool)
  : list (list string) * bool :=
  (fst out, true).

Definition encode_number (r : nat) (out : list string)
  : list string * error :=
  (out ++ [digit r], None).

(** A store that was closed: every call fails. *)
Definition closed : Err := ErrOther "store closed".

Definition closed_store : engine.Store unit := {|
  engine.Get := fun _ st => (EmptyString, Some closed);
  engine.Put := fun _ _ st => (st, Some closed);
  engine.Delete := fun _ st => (st, Some closed)
|}.

(** An index configuration is its name and whether it is unique; its
    encoding is the name after a mark for uniqueness. *)
Definition index_scan (v : bytes) (o : string * bool)
  : (string * bool) * error :=
  match v with
  | String c name => ((name, Ascii.eqb c "u"), None)
  | EmptyString => (o, boom)
  end.

Definition indexes : indexStore.API := {|
  indexStore.indexOptions := string * bool;
  indexStore.IndexName := fst;
  indexStore.buildIndexName := String.append "index ";
  indexStore.EncodeDocument := fun o =>
    (String (if snd o then "u" else "n")%char (fst o), None);
  indexStore.ScanDocument := index_scan;
  indexStore.zero := (EmptyString, false);
  indexStore.ErrIndexAlreadyExists := ErrOther "index already exists";
  indexStore.ErrIndexNotFound := ErrOther "index not found"
|}.

Definition idx_age : string * bool := ("age"%string, true).

(** Source files as their package names; a structure is found in a
    file when its name starts with the package name of the file, and
    the context found for it is its name. *)
Definition find_by_prefix (rc : string) (src : string) (name : string)
  : string * bool * error :=
  if String.prefix src name then (name, true, None) else (rc, false, None).

Definition key_order (m : gmap string Z) : list string :=
  (map_to_list m).*1.

Definition old_context : generator.genContext string :=
  {| generator.Pkg := "old"; generator.Imports := ["fmt"%string];
     generator.Records := []; generator.Results := [] |}.

Definition targets : generator.Config unit :=
  {| generator.cfg_Sources := [];
     generator.cfg_Records := ["mainUser"%string];
     generator.cfg_Results := [] |}.

End samples.

(** * Properties *)

Lemma wrap_int_small (z : Z) : min_int <= z <= max_int -> wrap_int z = z.
Proof.
  unfold wrap_int, min_int, max_int. intros Hz.
  rewrite Z.mod_small by lia. lia.
Qed.

(** ** Streams *)

Section StreamFacts.

Context {Document : Type}.
Implicit Types (i : Iterator Document) (o : StreamOperator Document).

(** *** The loops *)

Lemma range_until_cons {A S : Type} (step : A -> S -> S * error)
    (x : A) (l : list A) (st : S) :
  range_until step (x :: l) st =
    match step x st with
    | (st1, None) => range_until step l st1
    | (st1, Some e) => (st1, Some e)
    end.
Proof. simpl. destruct (step x st) as [st1 [e|]]; reflexivity. Qed.

Lemma range_until_app {A S : Type} (step : A -> S -> S * error)
    (l1 l2 : list A) (st : S) :
  range_until step (l1 ++ l2) st =
    match range_until step l1 st with
    | (st1, None) => range_until step l2 st1
    | (st1, Some e) => (st1, Some e)
    end.
Proof.
  revert st. induction l1 as [|x l1 IH]; intros st; simpl.
  - reflexivity.
  - destruct (step x st) as [st' [e|]]; [reflexivity | apply IH].
Qed.

(** A property of the state that every step keeps holds after the
    loop. *)
Lemma range_until_invariant {A S : Type} (I : S -> Prop)
    (step : A -> S -> S * error) (l : list A) :
  Forall (fun x => forall st, I st -> I (fst (step x st))) l ->
  forall st, I st -> I (fst (range_until step l st)).
Proof.
  induction 1 as [|x l Hx _ IH]; intros st Hst; simpl; [exact Hst|].
  specialize (Hx st Hst). destruct (step x st) as [st' [e|]]; simpl in *.
  - exact Hx.
  - apply IH, Hx.
Qed.

(** A property of errors that holds of nil and of every error a step
    returns holds of the error of the loop. *)
Lemma range_until_error {A S : Type} (P : error -> Prop)
    (step : A -> S -> S * error) (l : list A) :
  P None ->
  Forall (fun x => forall st, P (snd (step x st))) l ->
  forall st, P (snd (range_until step l st)).
Proof.
  intros HP. induction 1 as [|x l Hx _ IH]; intros st; simpl; [exact HP|].
  specialize (Hx st). destruct (step x st) as [st' [e|]]; simpl in *.
  - exact Hx.
  - apply IH.
Qed.

Lemma range_until_simulation {A S1 S2 : Type} (Rs Rt : S1 -> S2 -> Prop)
    (step1 : A -> S1 -> S1 * error) (step2 : A -> S2 -> S2 * error)
    (l : list A) :
  Forall (fun x => forall s1 s2, Rs s1 s2 ->
                   sim_out Rs Rt (step1 x s1) (step2 x s2)) l ->
  Forall (fun x => forall s1 s2, Rt s1 s2 -> Rt (fst (step1 x s1)) s2) l ->
  Forall (fun x => forall s1 s2, Rt s1 s2 -> Rt s1 (fst (step2 x s2))) l ->
  forall s1 s2, Rs s1 s2 ->
    sim_out Rs Rt (range_until step1 l s1) (range_until step2 l s2).
Proof.
  induction l as [|x l IH]; intros Hs H1 H2 s1 s2 HR; simpl.
  - left. split; [reflexivity | exact HR].
  - inversion Hs as [|? ? Hx Hs']; subst.
    inversion H1 as [|? ? H1x H1']; subst.
    inversion H2 as [|? ? H2x H2']; subst.
    specialize (Hx s1 s2 HR).
    destruct (step1 x s1) as [s1' e1], (step2 x s2) as [s2' e2].
    destruct Hx as [[He HR']|HT]; simpl in *.
    + subst e2. destruct e1 as [e|].
      * left. split; [reflexivity | exact HR'].
      * apply IH; assumption.
    + right.
      assert (Hl : forall e1 r1,
                 r1 = (match e1 with
                       | Some _ => (s1', e1)
                       | None => range_until step1 l s1'
                       end) -> Rt (fst r1) s2').
      { intros [e|] r1 ->; simpl; [exact HT|].
        apply (range_until_invariant (fun s => Rt s s2')); [|exact HT].
        eapply Forall_impl; [exact H1'|]. intros y Hy st Hst; apply Hy, Hst. }
      specialize (Hl e1 _ eq_refl).
      destruct e2 as [e|]; simpl; [exact Hl|].
      apply (range_until_invariant (fun s => Rt _ s)); [|exact Hl].
      eapply Forall_impl; [exact H2'|]. intros y Hy st Hst; apply Hy, Hst.
Qed.

(** *** [Iterate], case by case *)

Lemma Iterate_multi (l : list (Iterator Document)) {S : Type}
    (fn : Document -> S -> S * error) (st : S) :
  Iterate (multiIterator l) fn st
  = range_until (fun i' => Iterate i' fn) l st.
Proof. reflexivity. Qed.

Lemma Iterate_unpiped i {S : Type} (fn : Document -> S -> S * error)
    (st : S) :
  Iterate (StreamIterator (Some i) None) fn st = Iterate i fn st.
Proof. reflexivity. Qed.

Lemma Iterate_piped i o {S : Type} (fn : Document -> S -> S * error)
    (st : S) :
  Iterate (StreamIterator (Some i) (Some o)) fn st =
    (snd (fst (Iterate i (pipe_fn o fn) (op_new o, st))),
     if is_ErrStreamClosed (snd (Iterate i (pipe_fn o fn) (op_new o, st)))
     then None else snd (Iterate i (pipe_fn o fn) (op_new o, st))).
Proof.
  simpl. destruct (Iterate i (pipe_fn o fn) (op_new o, st)) as [[os st'] e].
  simpl. destruct (is_ErrStreamClosed e); reflexivity.
Qed.

(** A documents iterator returns the first error of its callback and
    visits no document after it. *)
Lemma documents_first_error {S : Type} (step : Document -> S -> S * error)
    (pre post : list Document) (d : Document) (st st1 st2 : S) (e : Err) :
  range_until step pre st = (st1, None) ->
  step d st1 = (st2, Some e) ->
  Iterate (NewIterator (pre ++ d :: post)) step st = (st2, Some e).
Proof.
  intros Hpre Hd. simpl. rewrite range_until_app, Hpre. simpl.
  rewrite Hd. reflexivity.
Qed.

(** *** Invariants of the callback state *)

Lemma pipe_fn_invariant o {S : Type} (I : S -> Prop)
    (fn : Document -> S -> S * error) :
  (forall d s, I s -> I (fst (fn d s))) ->
  forall d st, I (snd st) -> I (snd (fst (pipe_fn o fn d st))).
Proof.
  intros Hfn d [os s] Hs. unfold pipe_fn. simpl in Hs.
  destruct (op_fn o d os) as [os' [[r|] [e|]]]; simpl; try exact Hs.
  specialize (Hfn r s Hs). destruct (fn r s); exact Hfn.
Qed.

Lemma Iterate_invariant i :
  forall (S : Type) (I : S -> Prop) (fn : Document -> S -> S * error),
    (forall d s, I s -> I (fst (fn d s))) ->
    forall st, I st -> I (fst (Iterate i fn st)).
Proof.
  induction i as [rr|o|i o IH|l IH] using Iterator_induction;
    intros S I fn Hfn st Hst.
  - simpl. apply range_until_invariant; [|exact Hst].
    apply Forall_forall. intros d _. apply Hfn.
  - exact Hst.
  - destruct o as [o|]; [|simpl; apply IH; assumption].
    rewrite Iterate_piped. simpl.
    apply (IH _ (fun st => I (snd st)) (pipe_fn o fn)); [|exact Hst].
    intros d s. apply pipe_fn_invariant, Hfn.
  - simpl. apply range_until_invariant; [|exact Hst].
    eapply Forall_impl; [exact IH|]. intros i Hi st' Hst'.
    simpl. apply Hi; assumption.
Qed.

(** *** Iterators whose operators raise no error *)

Lemma no_failure_multi (l : list (Iterator Document)) :
  no_failure (multiIterator l) <-> Forall no_failure l.
Proof.
  induction l as [|x l IH]; simpl.
  - split; [constructor | trivial].
  - rewrite Forall_cons. simpl in IH. rewrite IH. reflexivity.
Qed.

Lemma stops_only_close (err : error) :
  stops_only err -> (if is_ErrStreamClosed err then None else err) = None.
Proof. intros [->| ->]; reflexivity. Qed.

Lemma pipe_fn_stops_only o {S : Type} (fn : Document -> S -> S * error) :
  never_fails o -> (forall d s, stops_only (snd (fn d s))) ->
  forall d st, stops_only (snd (pipe_fn o fn d st)).
Proof.
  intros Ho Hfn d [os s]. unfold pipe_fn.
  specialize (Ho d os). destruct (op_fn o d os) as [os' [r [e|]]]; simpl in *.
  - exact Ho.
  - destruct r as [r|]; [|left; reflexivity].
    specialize (Hfn r s). destruct (fn r s); exact Hfn.
Qed.

Lemma pipe_limit_stops_only (n : Z) {S : Type}
    (fn : Document -> S -> S * error) :
  (forall d s, stops_only (snd (fn d s))) ->
  forall d st, stops_only (snd (pipe_fn (limit_op n) fn d st)).
Proof.
  intros Hfn. apply pipe_fn_stops_only; [|exact Hfn].
  intros r os. simpl. destruct (os <? n); [left|right]; reflexivity.
Qed.

Lemma pipe_offset_stops_only (n : Z) {S : Type}
    (fn : Document -> S -> S * error) :
  (forall d s, stops_only (snd (fn d s))) ->
  forall d st, stops_only (snd (pipe_fn (offset_op n) fn d st)).
Proof.
  intros Hfn. apply pipe_fn_stops_only; [|exact Hfn].
  intros r os. simpl. destruct (os <? n); left; reflexivity.
Qed.

Lemma Iterate_stops_only i :
  forall (S : Type) (fn : Document -> S -> S * error),
    no_failure i -> (forall d s, stops_only (snd (fn d s))) ->
    forall st, stops_only (snd (Iterate i fn st)).
Proof.
  induction i as [rr|o|i o IH|l IH] using Iterator_induction;
    intros S fn Hi Hfn st.
  - simpl. apply range_until_error; [left; reflexivity|].
    apply Forall_forall; intros d _; apply Hfn.
  - left; reflexivity.
  - destruct o as [o|]; [|simpl; apply IH; assumption].
    destruct Hi as [Hi Ho]. rewrite Iterate_piped. simpl. left.
    apply stops_only_close, IH; [exact Hi|].
    apply pipe_fn_stops_only; assumption.
  - simpl. apply range_until_error; [left; reflexivity|].
    apply no_failure_multi in Hi.
    apply Forall_forall. intros i Hin st'.
    rewrite Forall_forall in IH, Hi. apply IH; auto.
Qed.

(** *** Two callbacks run over the same iterator

    While the two callbacks return the same errors the iterator calls
    them on the same documents; once they have parted, each side only
    has to keep the relation [Rt] on its own. *)

Lemma pipe_fn_simulation o {S1 S2 : Type} (Rs Rt : S1 -> S2 -> Prop)
    (fn1 : Document -> S1 -> S1 * error)
    (fn2 : Document -> S2 -> S2 * error) :
  (forall d s1 s2, Rs s1 s2 -> sim_out Rs Rt (fn1 d s1) (fn2 d s2)) ->
  forall d st1 st2, fst st1 = fst st2 /\ Rs (snd st1) (snd st2) ->
    sim_out (fun st1 st2 => fst st1 = fst st2 /\ Rs (snd st1) (snd st2))
            (fun st1 st2 => Rt (snd st1) (snd st2))
            (pipe_fn o fn1 d st1) (pipe_fn o fn2 d st2).
Proof.
  intros Hfn d [os s1] [os2 s2] [Hos HR]. simpl in Hos, HR. subst os2.
  unfold pipe_fn.
  destruct (op_fn o d os) as [os' [[r|] [e|]]];
    try (left; simpl; auto; fail).
  specialize (Hfn r s1 s2 HR).
  destruct (fn1 r s1) as [s1' e1], (fn2 r s2) as [s2' e2].
  destruct Hfn as [[He HR']|HT]; simpl in *; [left|right]; simpl; auto.
Qed.

Lemma sim_out_close {S1 S2 T1 T2 : Type} (Rs Rt : S1 -> S2 -> Prop)
    (r1 : (T1 * S1) * error) (r2 : (T2 * S2) * error) :
  sim_out (fun st1 st2 => Rs (snd st1) (snd st2))
          (fun st1 st2 => Rt (snd st1) (snd st2)) r1 r2 ->
  sim_out Rs Rt
    (snd (fst r1), if is_ErrStreamClosed (snd r1) then None else snd r1)
    (snd (fst r2), if is_ErrStreamClosed (snd r2) then None else snd r2).
Proof.
  destruct r1 as [[t1 s1] e1], r2 as [[t2 s2] e2].
  intros [[He HR]|HT]; simpl in *; [left|right]; simpl; auto.
  subst e2. auto.
Qed.

Lemma Iterate_simulation i :
  forall (S1 S2 : Type) (Rs Rt : S1 -> S2 -> Prop)
         (fn1 : Document -> S1 -> S1 * error)
         (fn2 : Document -> S2 -> S2 * error),
    (forall d s1 s2, Rs s1 s2 -> sim_out Rs Rt (fn1 d s1) (fn2 d s2)) ->
    (forall d s1 s2, Rt s1 s2 -> Rt (fst (fn1 d s1)) s2) ->
    (forall d s1 s2, Rt s1 s2 -> Rt s1 (fst (fn2 d s2))) ->
    forall s1 s2, Rs s1 s2 ->
      sim_out Rs Rt (Iterate i fn1 s1) (Iterate i fn2 s2).
Proof.
  induction i as [rr|o|i o IH|l IH] using Iterator_induction;
    intros S1 S2 Rs Rt fn1 fn2 Hs H1 H2 s1 s2 HR.
  - simpl. apply range_until_simulation; try exact HR;
      apply Forall_forall; intros d _; auto.
  - left. split; [reflexivity | exact HR].
  - destruct o as [o|]; [|simpl; apply IH; assumption].
    rewrite !Iterate_piped.
    apply sim_out_close.
    pose proof (IH _ _
      (fun st1 st2 => fst st1 = fst st2 /\ Rs (snd st1) (snd st2))
      (fun st1 st2 => Rt (snd st1) (snd st2))
      (pipe_fn o fn1) (pipe_fn o fn2)) as IH'.
    destruct IH' with (s1 := (op_new o, s1)) (s2 := (op_new o, s2))
      as [[He [_ HR']]|HT].
    + intros d st1 st2. apply pipe_fn_simulation, Hs.
    + intros d st1 st2 HT.
      apply (pipe_fn_invariant o (fun s => Rt s (snd st2))); [|exact HT].
      intros d' s; apply H1.
    + intros d st1 st2 HT.
      apply (pipe_fn_invariant o (fun s => Rt (snd st1) s)); [|exact HT].
      intros d' s; apply H2.
    + simpl; auto.
    + left; auto.
    + right; auto.
  - simpl. apply range_until_simulation; try exact HR.
    + eapply Forall_impl; [exact IH|]. intros i Hi st1 st2 Hst.
      apply Hi; assumption.
    + apply Forall_forall. intros i _ st1 st2 Hst.
      apply (Iterate_invariant i _ (fun s => Rt s st2)); [|exact Hst].
      intros d s; apply H1.
    + apply Forall_forall. intros i _ st1 st2 Hst.
      apply (Iterate_invariant i _ (fun s => Rt st1 s)); [|exact Hst].
      intros d s; apply H2.
Qed.

(** *** A second callback that stops, over a single source *)

Lemma stopped_sim_out {S1 S2 : Type} (Rs Rt : S1 -> S2 -> Prop)
    (r1 : S1 * error) (r2 : S2 * error) :
  stopped Rs Rt r1 r2 -> sim_out Rs Rt r1 r2.
Proof. intros [H|[_ H]]; [left | right]; exact H. Qed.

Lemma documents_stopped {S1 S2 : Type} (Rs Rt : S1 -> S2 -> Prop)
    (fn1 : Document -> S1 -> S1 * error)
    (fn2 : Document -> S2 -> S2 * error) (rr : list Document) :
  (forall d s1 s2, Rs s1 s2 -> stopped Rs Rt (fn1 d s1) (fn2 d s2)) ->
  (forall d s1 s2, Rt s1 s2 -> Rt (fst (fn1 d s1)) s2) ->
  forall s1 s2, Rs s1 s2 ->
    stopped Rs Rt (range_until fn1 rr s1) (range_until fn2 rr s2).
Proof.
  intros Hs H1. induction rr as [|d rr IH]; intros s1 s2 HR; simpl.
  - left. split; [reflexivity | exact HR].
  - specialize (Hs d s1 s2 HR).
    destruct (fn1 d s1) as [s1' e1], (fn2 d s2) as [s2' e2].
    destruct Hs as [[He HR']|[He HT]]; simpl in *; subst e2.
    + destruct e1 as [e|]; [left; auto | apply IH, HR'].
    + right. split; [reflexivity|].
      destruct e1 as [e|]; simpl; [exact HT|].
      apply (range_until_invariant (fun s => Rt s s2')); [|exact HT].
      apply Forall_forall. intros d' _ st Hst. apply H1, Hst.
Qed.

Lemma pipe_fn_stopped o {S1 S2 : Type} (Rs Rt : S1 -> S2 -> Prop)
    (fn1 : Document -> S1 -> S1 * error)
    (fn2 : Document -> S2 -> S2 * error) :
  (forall d s1 s2, Rs s1 s2 -> stopped Rs Rt (fn1 d s1) (fn2 d s2)) ->
  forall d st1 st2, fst st1 = fst st2 /\ Rs (snd st1) (snd st2) ->
    stopped (fun st1 st2 => fst st1 = fst st2 /\ Rs (snd st1) (snd st2))
            (fun st1 st2 => Rt (snd st1) (snd st2))
            (pipe_fn o fn1 d st1) (pipe_fn o fn2 d st2).
Proof.
  intros Hfn d [os s1] [os2 s2] [Hos HR]. simpl in Hos, HR. subst os2.
  unfold pipe_fn.
  destruct (op_fn o d os) as [os' [[r|] [e|]]];
    try (left; simpl; auto; fail).
  specialize (Hfn r s1 s2 HR).
  destruct (fn1 r s1) as [s1' e1], (fn2 r s2) as [s2' e2].
  destruct Hfn as [[He HR']|[He HT]]; simpl in *; [left|right]; simpl; auto.
Qed.

Lemma Iterate_linear_stopped i :
  linear i ->
  forall (S1 S2 : Type) (Rs Rt : S1 -> S2 -> Prop)
         (fn1 : Document -> S1 -> S1 * error)
         (fn2 : Document -> S2 -> S2 * error),
    (forall d s1 s2, Rs s1 s2 -> stopped Rs Rt (fn1 d s1) (fn2 d s2)) ->
    (forall d s1 s2, Rt s1 s2 -> Rt (fst (fn1 d s1)) s2) ->
    forall s1 s2, Rs s1 s2 ->
      stop_out Rs Rt (Iterate i fn1 s1) (Iterate i fn2 s2).
Proof.
  induction i as [rr|o|i o IH|l IH] using Iterator_induction;
    intros Hlin S1 S2 Rs Rt fn1 fn2 Hs H1 s1 s2 HR.
  - simpl.
    destruct (documents_stopped Rs Rt fn1 fn2 rr Hs H1 s1 s2 HR)
      as [Hsame|[He HT]]; [left; exact Hsame | right].
    split; [right; exact He | exact HT].
  - left. split; [reflexivity | exact HR].
  - simpl in Hlin. destruct o as [o|]; [|simpl; apply IH; assumption].
    rewrite !Iterate_piped.
    destruct (IH Hlin _ _
      (fun st1 st2 => fst st1 = fst st2 /\ Rs (snd st1) (snd st2))
      (fun st1 st2 => Rt (snd st1) (snd st2))
      (pipe_fn o fn1) (pipe_fn o fn2)) with
      (s1 := (op_new o, s1)) (s2 := (op_new o, s2))
      as [[He [_ HR']]|[He HT]].
    + intros d st1 st2. apply pipe_fn_stopped, Hs.
    + intros d st1 st2 HT.
      apply (pipe_fn_invariant o (fun s => Rt s (snd st2))); [|exact HT].
      intros d' s; apply H1.
    + simpl; auto.
    + left. simpl. rewrite He. auto.
    + right. simpl. split; [|exact HT].
      left. apply stops_only_close, He.
  - destruct Hlin.
Qed.

(** *** [Offset], [Limit] and [Count] against the documents passed *)

Lemma offset_limit_step (n m : Z) :
  0 <= n <= max_int -> 0 <= m <= max_int ->
  forall (d : Document) log st, offset_limit_sync n m log st ->
    stopped (offset_limit_sync n m) (offset_limit_done n m)
      (collect_fn d log)
      (pipe_fn (offset_op n) (pipe_fn (limit_op m) collect_fn) d st).
Proof.
  intros Hn Hm d log [sk [c out]] (Hsk & Hout & Hc & Hcm). simpl in *.
  destruct (Z.ltb_spec sk n) as [Hlt|Hge].
  - left. simpl. split; [reflexivity|].
    unfold offset_limit_sync. simpl. rewrite length_app. simpl.
    rewrite wrap_int_small by (unfold min_int, max_int in *; lia).
    repeat split; try lia.
    rewrite Hout, !drop_ge by (rewrite ?length_app; simpl; lia).
    reflexivity.
  - destruct (Z.ltb_spec c m) as [Hlt'|Hge']; simpl.
    + left. simpl. split; [reflexivity|].
      unfold offset_limit_sync. simpl. rewrite !length_app. simpl.
      rewrite wrap_int_small by (unfold min_int, max_int in *; lia).
      repeat split; try lia.
      rewrite Hout, drop_app_le by lia. reflexivity.
    + right. split; [reflexivity|].
      unfold offset_limit_done. simpl. rewrite length_app. simpl.
      assert (Hlen : length out = Z.to_nat m) by lia.
      rewrite drop_app_le by lia. rewrite <- Hout.
      repeat split; try lia.
      * rewrite take_app_le by lia. rewrite take_ge by lia. reflexivity.
      * rewrite length_app. simpl. lia.
Qed.

Lemma offset_limit_done_l (n m : Z) (d : Document) (log : list Document) st :
  offset_limit_done n m log st ->
  offset_limit_done n m (fst (collect_fn d log)) st.
Proof.
  destruct st as [sk [c out]]. intros (Hsk & Hc & Hlen & Hout & Hm').
  simpl in *. unfold offset_limit_done. simpl. rewrite length_app. simpl.
  rewrite drop_app_le by lia.
  repeat split; try lia.
  - rewrite take_app_le by lia. exact Hout.
  - rewrite length_app. lia.
Qed.

Lemma offset_limit_done_r (n m : Z) (d : Document) (log : list Document) st :
  offset_limit_done n m log st ->
  offset_limit_done n m log
    (fst (pipe_fn (offset_op n) (pipe_fn (limit_op m) collect_fn) d st)).
Proof.
  destruct st as [sk [c out]]. intros (Hsk & Hc & Hlen & Hout & Hm').
  simpl in *. subst sk c.
  destruct (Z.ltb_spec n n) as [Hlt|_]; [lia|].
  destruct (Z.ltb_spec m m) as [Hlt|_]; [lia|].
  simpl. unfold offset_limit_done. simpl. auto.
Qed.

Lemma offset_limit_final (n m : Z) (log : list Document) st :
  0 <= m ->
  offset_limit_sync n m log st \/ offset_limit_done n m log st ->
  snd (snd st) = take (Z.to_nat m) (drop (Z.to_nat n) log).
Proof.
  destruct st as [sk [c out]]. simpl.
  intros Hm [(Hsk & Hout & Hc & Hcm)|(Hsk & Hc & Hlen & Hout & Hm')];
    simpl in *; [|exact Hout].
  rewrite <- Hout. rewrite take_ge by lia. reflexivity.
Qed.

Lemma Offset_Limit_documents i (n m : Z) :
  0 <= n <= max_int -> 0 <= m <= max_int ->
  snd (snd (fst (Iterate i
                   (pipe_fn (offset_op n) (pipe_fn (limit_op m) collect_fn))
                   (0, (0, [])))))
  = take (Z.to_nat m) (drop (Z.to_nat n) (fst (collect i))).
Proof.
  intros Hn Hm. apply offset_limit_final; [lia|]. unfold collect.
  assert (Hsim : sim_out (offset_limit_sync n m) (offset_limit_done n m)
                   (Iterate i collect_fn [])
                   (Iterate i (pipe_fn (offset_op n)
                                 (pipe_fn (limit_op m) collect_fn))
                      (0, (0, [])))).
  { apply Iterate_simulation.
    - intros d log st Hst.
      apply stopped_sim_out, offset_limit_step; assumption.
    - intros d log st. apply offset_limit_done_l.
    - intros d log st. apply offset_limit_done_r.
    - unfold offset_limit_sync. simpl. rewrite drop_nil.
      repeat split; lia. }
  destruct Hsim as [[_ H]|H]; [left | right]; exact H.
Qed.

Lemma limit_count_step (n : Z) :
  0 <= n <= max_int ->
  forall (d : Document) log st, limit_count_sync n log st ->
    stopped (limit_count_sync n) (limit_count_done n)
      (collect_fn d log) (pipe_fn (limit_op n) count_fn d st).
Proof.
  intros Hn d log [c0 c] (Hc0 & Hc & Hle). simpl in *. subst c.
  destruct (Z.ltb_spec c0 n) as [Hlt|Hge]; simpl.
  - left. simpl. split; [reflexivity|].
    unfold limit_count_sync. simpl. rewrite length_app. simpl.
    rewrite wrap_int_small by (unfold min_int, max_int in *; lia).
    lia.
  - right. split; [reflexivity|].
    unfold limit_count_done. simpl. rewrite length_app. simpl. lia.
Qed.

Lemma limit_count_done_l (n : Z) (d : Document) (log : list Document) st :
  limit_count_done n log st ->
  limit_count_done n (fst (collect_fn d log)) st.
Proof.
  destruct st as [c0 c]. intros (Hc0 & Hc & Hle). simpl in *.
  unfold limit_count_done. simpl. rewrite length_app. simpl. lia.
Qed.

Lemma limit_count_done_r (n : Z) (d : Document) (log : list Document) st :
  limit_count_done n log st ->
  limit_count_done n log (fst (pipe_fn (limit_op n) count_fn d st)).
Proof.
  destruct st as [c0 c]. intros (Hc0 & Hc & Hle). simpl in *. subst c0 c.
  destruct (Z.ltb_spec n n) as [Hlt|_]; [lia|].
  simpl. unfold limit_count_done. simpl. auto.
Qed.

Lemma Limit_Count_documents i (n : Z) :
  0 <= n <= max_int ->
  snd (fst (Iterate i (pipe_fn (limit_op n) count_fn) (0, 0)))
  = Z.min n (Z.of_nat (length (fst (collect i)))).
Proof.
  intros Hn. unfold collect.
  assert (Hsim : sim_out (limit_count_sync n) (limit_count_done n)
                   (Iterate i collect_fn [])
                   (Iterate i (pipe_fn (limit_op n) count_fn) (0, 0))).
  { apply Iterate_simulation.
    - intros d log st Hst.
      apply stopped_sim_out, limit_count_step; assumption.
    - intros d log st. apply limit_count_done_l.
    - intros d log st. apply limit_count_done_r.
    - unfold limit_count_sync. simpl. lia. }
  destruct (Iterate i (pipe_fn (limit_op n) count_fn) (0, 0))
    as [[c0 c] e].
  destruct Hsim as [[_ (Hc0 & Hc & Hle)]|(Hc0 & Hc & Hle)];
    simpl in *; lia.
Qed.

(** The stop signal of [Limit] is the only error that the iteration of
    a clean stream under [Offset] and [Limit] can end with. *)
Lemma Offset_Limit_stops_only i (n m : Z) :
  0 <= n <= max_int -> 0 <= m <= max_int -> runs_clean i ->
  stops_only
    (snd (Iterate i
            (pipe_fn (offset_op n) (pipe_fn (limit_op m) collect_fn))
            (0, (0, [])))).
Proof.
  intros Hn Hm [Hi|[Hlin Hend]].
  - apply Iterate_stops_only; [exact Hi|].
    apply pipe_offset_stops_only, pipe_limit_stops_only.
    intros d st; left; reflexivity.
  - assert (Hsim : stop_out (offset_limit_sync n m) (offset_limit_done n m)
                     (Iterate i collect_fn [])
                     (Iterate i (pipe_fn (offset_op n)
                                   (pipe_fn (limit_op m) collect_fn))
                        (0, (0, [])))).
    { apply (Iterate_linear_stopped i Hlin).
      - apply offset_limit_step; assumption.
      - intros d log st. apply offset_limit_done_l.
      - unfold offset_limit_sync. simpl. rewrite drop_nil.
        repeat split; lia. }
    destruct Hsim as [[He _]|[He _]]; [|exact He].
    left. transitivity (snd (Iterate i collect_fn []));
      [symmetry; exact He | exact Hend].
Qed.

Lemma Limit_Count_stops_only i (n : Z) :
  0 <= n <= max_int -> runs_clean i ->
  stops_only (snd (Iterate i (pipe_fn (limit_op n) count_fn) (0, 0))).
Proof.
  intros Hn [Hi|[Hlin Hend]].
  - apply Iterate_stops_only; [exact Hi|].
    apply pipe_limit_stops_only. intros d st; left; reflexivity.
  - assert (Hsim : stop_out (limit_count_sync n) (limit_count_done n)
                     (Iterate i collect_fn [])
                     (Iterate i (pipe_fn (limit_op n) count_fn) (0, 0))).
    { apply (Iterate_linear_stopped i Hlin).
      - apply limit_count_step; assumption.
      - intros d log st. apply limit_count_done_l.
      - unfold limit_count_sync. simpl. lia. }
    destruct Hsim as [[He _]|[He _]]; [|exact He].
    left. transitivity (snd (Iterate i collect_fn []));
      [symmetry; exact He | exact Hend].
Qed.

(** *** [Iterate], [Offset], [Limit], [Count], [Filter], [Append], [First] *)

(** Over the documents of [NewIterator], the iteration of a piped
    stream ends at the first document on which the operator or the
    callback returns an error: the callback keeps the state it had
    then, and the error is returned, or nil for [ErrStreamClosed]. *)
Lemma Pipe_documents_error o {S : Type} (fn : Document -> S -> S * error)
    (pre post : list Document) (d : Document) (st st1 st2 : S)
    (os1 os2 : op_state o) (e : Err) :
  range_until (pipe_fn o fn) pre (op_new o, st) = ((os1, st1), None) ->
  pipe_fn o fn d (os1, st1) = ((os2, st2), Some e) ->
  Stream_Iterate (Pipe (NewStream (NewIterator (pre ++ d :: post))) o) fn st
  = (st2, if is_ErrStreamClosed (Some e) then None else Some e).
Proof.
  intros Hpre Hd.
  unfold Stream_Iterate, Pipe, NewStream, Stream_as_Iterator. cbn [it op].
  rewrite Iterate_piped, Iterate_unpiped.
  rewrite (documents_first_error _ pre post d _ _ _ e Hpre Hd).
  reflexivity.
Qed.

(** C1, as amended. For every stream that has an operator, every
    callback and every state of the callback: if the iteration of the
    underlying iterator, with the operator applied before the callback,
    ends with [ErrStreamClosed], then [Stream.Iterate] returns a nil
    error; if it ends with any other error, or with none,
    [Stream.Iterate] returns exactly that; so [Stream.Iterate] never
    returns [ErrStreamClosed]. A stream without an operator returns
    what its underlying iterator returns, [ErrStreamClosed] included. *)
Theorem Stream_Iterate_error i o {S : Type}
    (fn : Document -> S -> S * error) (st : S)
    (os' : op_state o) (st' : S) (err : error) :
  Iterate i (pipe_fn o fn) (op_new o, st) = ((os', st'), err) ->
  (err = Some ErrStreamClosed ->
     Stream_Iterate {| it := Some i; op := Some o |} fn st = (st', None)) /\
  (err <> Some ErrStreamClosed ->
     Stream_Iterate {| it := Some i; op := Some o |} fn st = (st', err)) /\
  snd (Stream_Iterate {| it := Some i; op := Some o |} fn st)
    <> Some ErrStreamClosed /\
  Stream_Iterate {| it := Some i; op := None |} fn st = Iterate i fn st.
Proof.
  intros Hrun. unfold Stream_Iterate, Stream_as_Iterator. cbn [it op].
  rewrite Iterate_piped, Hrun. cbn [fst snd].
  repeat split.
  - intros ->. reflexivity.
  - intros Hne. destruct err as [[]|]; try reflexivity. contradiction.
  - destruct err as [[]|]; simpl; discriminate.
Qed.

(** X29. For every stream [s], with [docs] the documents [s] passes to
    its caller, and all [n], [m] from 0 to the largest [int]:
    iterating [s.Offset(n).Limit(m)] passes to the caller the documents
    number [n] to [n+m-1] of [docs], those that exist, in order;
    [s.Limit(n).Count()] counts [min n (len docs)] documents, which is
    at most [n]; and both end with a nil error when [s] runs clean: no
    operator of [s] raises an error of its own, or [s] reads a single
    source and iterates to its end without error. *)
Theorem Offset_Limit_Count (s : Stream Document) (n m : Z) :
  0 <= n <= max_int -> 0 <= m <= max_int ->
  let docs := fst (collect (Stream_as_Iterator s)) in
  fst (collect (Stream_as_Iterator (Limit (Offset s n) m)))
    = take (Z.to_nat m) (drop (Z.to_nat n) docs) /\
  fst (Count (Limit s n)) = Z.min n (Z.of_nat (length docs)) /\
  fst (Count (Limit s n)) <= n /\
  (runs_clean (Stream_as_Iterator s) ->
     snd (collect (Stream_as_Iterator (Limit (Offset s n) m))) = None /\
     snd (Count (Limit s n)) = None).
Proof.
  intros Hn Hm docs.
  assert (Hcount : fst (Count (Limit s n))
                   = Z.min n (Z.of_nat (length docs))).
  { unfold Count, Stream_Iterate, Limit, Pipe, Stream_as_Iterator at 1.
    cbn [it op]. rewrite Iterate_piped. cbn [fst op_new limit_op].
    apply Limit_Count_documents, Hn. }
  split; [|split; [exact Hcount|split; [lia|]]].
  - unfold collect at 1, Limit, Offset, Pipe, Stream_as_Iterator at 1 2.
    cbn [it op]. rewrite Iterate_piped. cbn [fst].
    rewrite Iterate_piped. cbn [fst snd op_new limit_op offset_op].
    apply Offset_Limit_documents; assumption.
  - intros Hs. split.
    + unfold collect, Limit, Offset, Pipe, Stream_as_Iterator at 1 2.
      cbn [it op]. rewrite Iterate_piped. cbn [snd].
      apply stops_only_close. rewrite Iterate_piped. cbn [snd]. left.
      apply stops_only_close.
      apply (Offset_Limit_stops_only _ n m Hn Hm Hs).
    + unfold Count, Stream_Iterate, Limit, Pipe, Stream_as_Iterator at 1.
      cbn [it op]. rewrite Iterate_piped. cbn [snd].
      apply stops_only_close.
      apply (Limit_Count_stops_only _ n Hn Hs).
Qed.

(** C7, as amended. For every stream [s] and every predicate that
    returns true, without error, for every document: iterating
    [s.Filter(pred)] calls the callback on the same documents in the
    same order as iterating [s] (the callback ends in the same state),
    and returns the same error, except that where iterating [s] returns
    [ErrStreamClosed], iterating [s.Filter(pred)] returns nil. *)
Theorem Filter_true_Iterate (s : Stream Document)
    (pred : Document -> bool * error) :
  (forall d, pred d = (true, None)) ->
  forall (S : Type) (fn : Document -> S -> S * error) (st : S),
    Stream_Iterate (Filter s pred) fn st =
      (fst (Stream_Iterate s fn st),
       if is_ErrStreamClosed (snd (Stream_Iterate s fn st)) then None
       else snd (Stream_Iterate s fn st)).
Proof.
  intros Hpred S fn st.
  unfold Stream_Iterate at 1, Filter, Pipe, Stream_as_Iterator at 1.
  cbn [it op]. rewrite Iterate_piped. fold (Stream_as_Iterator s).
  set (o := filter_op pred).
  assert (Hsim : sim_out (fun s1 (st2 : op_state o * S) => s1 = snd st2)
                   (fun _ _ => False)
                   (Iterate (Stream_as_Iterator s) fn st)
                   (Iterate (Stream_as_Iterator s) (pipe_fn o fn)
                      (op_new o, st))).
  { apply Iterate_simulation; try tauto.
    intros d s1 [os s2] ->. left. simpl. rewrite Hpred.
    destruct (fn d s2); simpl; auto. }
  destruct Hsim as [[He Hst]|[]].
  unfold Stream_Iterate. rewrite He, Hst. reflexivity.
Qed.

(** X1. On a stream that reads a single source, [First] does what its
    comment says: it returns the first document the stream passes, or
    nil and the error of the stream when it passes none. *)
Lemma First_linear (s : Stream Document) :
  linear (Stream_as_Iterator s) ->
  First s =
    match collect (Stream_as_Iterator s) with
    | (d :: _, _) => (Some d, None)
    | ([], err) => (None, if is_ErrStreamClosed err then None else err)
    end.
Proof.
  intros Hlin. unfold First, Stream_Iterate, collect.
  destruct (Iterate_linear_stopped (Stream_as_Iterator s) Hlin
              (list Document) (option Document)
              (fun log r => log = [] /\ r = None)
              (fun log r => r = head log /\ log <> [])
              collect_fn first_fn)
    with (s1 := @nil Document) (s2 := @None Document)
    as [[He [Hlog Hr]]|[He [Hr Hlog]]].
  - intros d log r [-> ->]. right. simpl. split; [reflexivity|].
    split; [reflexivity | discriminate].
  - intros d log r [-> Hlog]. simpl. split.
    + destruct log; [contradiction | reflexivity].
    + destruct log; discriminate.
  - split; reflexivity.
  - destruct (Iterate (Stream_as_Iterator s) collect_fn []) as [log e1],
      (Iterate (Stream_as_Iterator s) first_fn None) as [r e2].
    simpl in *. subst. destruct (is_ErrStreamClosed e2); reflexivity.
  - destruct (Iterate (Stream_as_Iterator s) collect_fn []) as [log e1],
      (Iterate (Stream_as_Iterator s) first_fn None) as [r e2].
    simpl in *. subst r. destruct log as [|d log]; [contradiction|].
    simpl. destruct He as [->| ->]; reflexivity.
Qed.

(** C10, at a failing input. The stream reads a piped stream over [d1]
    and then, by [Append], an iterator over [d2]. Iterated to its end
    it passes [d1] and then [d2] to its caller, so [d1] is the first
    document to reach the end of the pipeline; [First] returns [d2]. *)
Theorem First_after_Append (d1 d2 : Document) :
  let s := Append (NewStream (Stream_as_Iterator
                     (Map (NewStream (NewIterator [d1]))
                          (fun d => (Some d, None)))))
                  (NewIterator [d2]) in
  collect (Stream_as_Iterator s) = ([d1; d2], None) /\
  First s = (Some d2, None).
Proof. split; reflexivity. Qed.

End StreamFacts.

(** The stop signal of [Limit] turns into nil; the error of a failing
    [Map] surfaces as it is. *)
Lemma Stream_Iterate_error_witness :
  Stream_Iterate (Limit samples.three 1) count_fn 0 = (1, None) /\
  Stream_Iterate (Map samples.three samples.failing) count_fn 0
    = (0, samples.boom).
Proof.
  split.
  - apply (proj1 (Stream_Iterate_error
                    (Stream_as_Iterator samples.three) (limit_op 1)
                    count_fn 0 1 1 (Some ErrStreamClosed) eq_refl)).
    reflexivity.
  - apply (proj1 (proj2 (Stream_Iterate_error
                    (Stream_as_Iterator samples.three)
                    (map_op samples.failing)
                    count_fn 0 tt 0 samples.boom eq_refl))).
    discriminate.
Defined.

(** Counterexample to C1, on a stream without operator: the callback
    returns [ErrStreamClosed] on the only document and [Stream.Iterate]
    returns it, not nil. *)
Lemma Stream_Iterate_surfaces_stop :
  Stream_Iterate samples.one samples.always_stop 0
    = (1, Some ErrStreamClosed) /\
  snd (Stream_Iterate samples.one samples.always_stop 0) <> None.
Proof. split; [reflexivity | discriminate]. Qed.

Lemma Offset_Limit_Count_witness :
  fst (collect (Stream_as_Iterator (Limit (Offset samples.three 1) 1)))
    = [2%nat] /\
  fst (Count (Limit samples.three 2)) = 2 /\
  fst (Count (Limit samples.three 2)) <= 2 /\
  (runs_clean (Stream_as_Iterator samples.three) ->
     snd (collect (Stream_as_Iterator (Limit (Offset samples.three 1) 1)))
       = None /\
     snd (Count (Limit samples.three 2)) = None).
Proof.
  assert (H1 : 0 <= 1 <= max_int) by (unfold max_int; lia).
  assert (H2 : 0 <= 2 <= max_int) by (unfold max_int; lia).
  destruct (Offset_Limit_Count samples.three 1 1 H1 H1) as (Hdocs & _ & _ & He).
  destruct (Offset_Limit_Count samples.three 2 1 H2 H1) as (_ & Hc & Hle & He').
  split; [exact Hdocs | split; [exact Hc | split; [exact Hle |]]].
  intros Hs. split; [apply He, Hs | apply He', Hs].
Defined.

(** C6, at a failing input. [s] reads, by [Append], a piped stream over
    [1], [2], [3] and then an iterator over [4], lets three documents
    through and fails on [4]: iterated alone it passes [1], [2], [3] and
    ends with a nil error. [s.Limit(1).Count()] counts one document and
    returns the error of the failing operator, not nil: the stop of
    [Limit] ends the piped stream, which turns it into nil, so the
    [multiIterator] goes on to [4], which now passes the inner limit
    and reaches the operator that fails. The first conjunct builds the
    appended stream on the arrays. *)
Theorem Limit_may_surface_an_error (grow : nat -> nat) :
  let s := Map (Limit samples.appended 3) samples.fails_on_four in
  let r :=
    shared.Append grow
      (shared.NewStream
         (shared.Stream_as_Value
            (shared.Pipe (shared.NewStream (shared.NewIterator [1; 2; 3]%nat))
               (map_op samples.identity))))
      (shared.NewIterator [4%nat]) [] in
  shared.read_Stream 6 (snd r) (fst r) = Some samples.appended /\
  collect (Stream_as_Iterator s) = ([1; 2; 3]%nat, None) /\
  Count (Limit s 1) = (1, samples.boom) /\
  snd (Count (Limit s 1)) <> None.
Proof. repeat split; try reflexivity. discriminate. Qed.

Lemma Filter_true_Iterate_witness :
  Stream_Iterate (Filter samples.three samples.keep_all) count_fn 0
    = (3, None).
Proof.
  exact (Filter_true_Iterate samples.three samples.keep_all
           (fun d => eq_refl) Z count_fn 0).
Defined.

(** Counterexample to C7, on the final result: on a stream without
    operator the callback's [ErrStreamClosed] is returned, and after
    [Filter] it is not. *)
Lemma Filter_true_changes_result :
  Stream_Iterate samples.one samples.always_stop 0
    = (1, Some ErrStreamClosed) /\
  Stream_Iterate (Filter samples.one samples.keep_all) samples.always_stop 0
    = (1, None).
Proof. split; reflexivity. Qed.

(** C8, at a failing input. [s] is a stream with an operator, which
    maps [1] to [11]; [i] is an iterator over [2]. [s.Append(i)] puts
    [s], whole, and [i] into a [multiIterator] of its own and returns
    [s] with that iterator in the place of its own and its operator
    kept. The result passes [21] and [12]: the operator of [s] has run
    twice over the document of [s], and once over the document of [i].
    The claim says [11] and [2]. The call is made on the arrays, from
    the empty heap, whatever capacity the runtime chooses for a slice
    that grows. *)
Theorem Append_applies_operator_twice (grow : nat -> nat) :
  let s :=
    shared.Pipe (shared.NewStream (shared.NewIterator [1%nat]))
      (map_op samples.add_ten) in
  let i := shared.NewIterator [2%nat] in
  let r := shared.Append grow s i [] in
  let s_read := Map (NewStream (NewIterator [1%nat])) samples.add_ten in
  let i_read := NewIterator [2%nat] in
  shared.read_Stream 3 [] s = Some s_read /\
  shared.read 1 [] i = Some i_read /\
  collect (Stream_as_Iterator s_read) = ([11%nat], None) /\
  collect i_read = ([2%nat], None) /\
  shared.read_Stream 5 (snd r) (fst r) = Some (Append s_read i_read) /\
  collect (Stream_as_Iterator (Append s_read i_read))
  = ([21; 12]%nat, None).
Proof. repeat split; reflexivity. Qed.

(** ** The logical operators *)

Section OperatorFacts.

Import expr.
Context {Value EvalStack : Type}.
Variable IsTruthy : Value -> bool.
Variable trueLitteral falseLitteral : Value.

(** C5. For all expressions [a] and [b] and every evaluation stack: if
    [a] evaluates without error to a falsy value, [And(a, b).Eval]
    returns the false literal and a nil error, whatever [b] is, an
    expression that fails included; if [a] evaluates without error to a
    truthy value, [Or(a, b).Eval] returns the true literal and a nil
    error, whatever [b] is. *)
Theorem And_Or_short_circuit (a b : @Expr Value EvalStack)
    (ctx : EvalStack) (s : Value) :
  Eval a ctx = (s, None) ->
  (IsTruthy s = false ->
     Eval (And IsTruthy trueLitteral falseLitteral a b) ctx
     = (falseLitteral, None)) /\
  (IsTruthy s = true ->
     Eval (Or IsTruthy trueLitteral falseLitteral a b) ctx
     = (trueLitteral, None)).
Proof.
  intros Ha. split; intros Hs; cbn [Eval And Or].
  - unfold AndOp_Eval. cbn [expr.a]. rewrite Ha. cbn [is_Some_b orb].
    rewrite Hs. reflexivity.
  - unfold OrOp_Eval. cbn [expr.a]. rewrite Ha. cbn [is_Some_b].
    rewrite Hs. reflexivity.
Qed.

End OperatorFacts.

(** The skipped operand is one whose evaluation fails. *)
Lemma And_Or_short_circuit_witness :
  expr.Eval (expr.And id true false (samples.literal false) samples.broken) tt
    = (false, None) /\
  expr.Eval (expr.Or id true false (samples.literal true) samples.broken) tt
    = (true, None).
Proof.
  split.
  - exact (proj1 (And_Or_short_circuit id true false
                    (samples.literal false) samples.broken tt false eq_refl)
             eq_refl).
  - exact (proj2 (And_Or_short_circuit id true false
                    (samples.literal true) samples.broken tt true eq_refl)
             eq_refl).
Defined.

(** ** The table catalog over the map store *)

#[local] Existing Instance engine.mapStore.

Section CatalogFacts.

Import document database.
Context {api : API}.
Implicit Types (st : gmap string bytes) (cfg : TableConfig).

Lemma Get_map (key : string) st :
  engine.Get key st =
    match st !! key with
    | Some v => ((v : bytes), None)
    | None => (EmptyString, Some ErrKeyNotFound)
    end.
Proof. reflexivity. Qed.

Lemma Delete_map (key : string) st :
  engine.Delete key st =
    match st !! key with
    | Some _ => (delete key st, None)
    | None => (st, Some ErrKeyNotFound)
    end.
Proof. reflexivity. Qed.

Lemma Insert_present (tableName : string) cfg st :
  is_Some (st !! tableName) ->
  Insert tableName cfg st = (st, Some ErrTableAlreadyExists).
Proof.
  intros [old Hold]. unfold Insert. rewrite Get_map, Hold. reflexivity.
Qed.

Lemma Insert_absent (tableName : string) cfg st (v : bytes) :
  EncodeDocument (configFields cfg) = (v, None) ->
  st !! tableName = None ->
  Insert tableName cfg st = (<[tableName := v]> st, None).
Proof.
  intros Henc Hnone. unfold Insert. rewrite Get_map, Hnone, Henc.
  reflexivity.
Qed.

(** The fields that [Insert] and [Replace] build are the three fields
    of the configuration, under their names and in the order of the
    declaration; [uint8] leaves a byte as it is. *)
Lemma configFields_document cfg :
  wf_TableConfig cfg ->
  configFields cfg
  = [("PrimaryKeyName"%string, NewStringValue (PrimaryKeyName cfg));
     ("PrimaryKeyType"%string, NewUint8Value (PrimaryKeyType cfg));
     ("lastKey"%string, NewInt64Value (lastKey cfg))].
Proof.
  intros [Htp _]. unfold configFields, Add, uint8.
  rewrite Z.mod_small by exact Htp. reflexivity.
Qed.

(** C2. Over a store that raises no error but [ErrKeyNotFound], for
    every table name and every configuration (its [PrimaryKeyType] a
    byte, its [lastKey] an [int64]), with [v] the encoding of the
    document that holds the three fields of the configuration:
    [Insert] returns [ErrTableAlreadyExists] if and only if the store
    holds an entry for the table name, and then leaves the store as it
    is; otherwise it stores [v] under the table name and returns no
    error. *)
Theorem Insert_spec (tableName : string) cfg st (v : bytes) :
  wf_TableConfig cfg ->
  EncodeDocument
    [("PrimaryKeyName"%string, NewStringValue (PrimaryKeyName cfg));
     ("PrimaryKeyType"%string, NewUint8Value (PrimaryKeyType cfg));
     ("lastKey"%string, NewInt64Value (lastKey cfg))] = (v, None) ->
  (snd (Insert tableName cfg st) = Some ErrTableAlreadyExists
     <-> is_Some (st !! tableName)) /\
  (is_Some (st !! tableName) ->
     Insert tableName cfg st = (st, Some ErrTableAlreadyExists)) /\
  (st !! tableName = None ->
     Insert tableName cfg st = (<[tableName := v]> st, None)).
Proof.
  intros Hwf Henc. rewrite <- (configFields_document cfg Hwf) in Henc.
  split; [|split].
  - destruct (st !! tableName) as [old|] eqn:Hlook.
    + rewrite Insert_present by (rewrite Hlook; eauto).
      split; [eauto | reflexivity].
    + rewrite (Insert_absent _ _ _ v) by assumption.
      split; [discriminate | intros [? [=]]].
  - apply Insert_present.
  - apply Insert_absent, Henc.
Qed.

(** C3. Over a store that raises no error but [ErrKeyNotFound]: for
    every table name absent from the store, [Replace] (whatever
    configuration it is given) and [Delete] return [ErrTableNotFound]
    and leave the store as it is; for every table name present,
    [Replace] puts [v], the encoding of the document that holds the
    three fields of the new configuration, in the place of the stored
    bytes and [Delete] removes the entry, both without error. *)
Theorem Replace_Delete_spec (tableName : string) cfg st (v : bytes) :
  wf_TableConfig cfg ->
  EncodeDocument
    [("PrimaryKeyName"%string, NewStringValue (PrimaryKeyName cfg));
     ("PrimaryKeyType"%string, NewUint8Value (PrimaryKeyType cfg));
     ("lastKey"%string, NewInt64Value (lastKey cfg))] = (v, None) ->
  (st !! tableName = None ->
     (forall p, Replace tableName p st = Some (st, Some ErrTableNotFound)) /\
     Delete tableName st = (st, Some ErrTableNotFound)) /\
  (is_Some (st !! tableName) ->
     Replace tableName (Some cfg) st = Some (<[tableName := v]> st, None) /\
     Delete tableName st = (delete tableName st, None)).
Proof.
  intros Hwf Henc. rewrite <- (configFields_document cfg Hwf) in Henc.
  unfold Replace, Delete.
  rewrite Get_map, Delete_map, Henc.
  destruct (st !! tableName) as [old|] eqn:Hlook; simpl.
  - split; [discriminate|]. intros _. split; reflexivity.
  - split; [|intros [? [=]]]. intros _. split; reflexivity.
Qed.

Lemma Get_after_Put (tableName : string) cfg st (v : bytes) :
  wf_TableConfig cfg -> round_trips cfg v ->
  Get tableName (<[tableName := v]> st) = (Some cfg, None).
Proof.
  intros [Htp _] (Henc & Hname & Htype & Hlast & Hs & Hu & Hi).
  unfold Get. rewrite Get_map, lookup_insert_eq. cbn [is_ErrKeyNotFound].
  rewrite Hname, Hs, Htype, Hu, Hlast, Hi.
  unfold uint8. rewrite Z.mod_small by exact Htp.
  destruct cfg; reflexivity.
Qed.

(** C4. For every configuration whose [PrimaryKeyType] is a byte and
    whose [lastKey] is an [int64], and every table name not yet in the
    store: where the encoding gives back the three fields it was given
    and their conversions give back what the values were built from,
    [Insert] succeeds and [Get] on the resulting store returns a
    configuration equal to the inserted one. *)
Theorem Insert_Get_round_trip (tableName : string) cfg st (v : bytes) :
  wf_TableConfig cfg -> round_trips cfg v -> st !! tableName = None ->
  snd (Insert tableName cfg st) = None /\
  Get tableName (fst (Insert tableName cfg st)) = (Some cfg, None).
Proof.
  intros Hwf Hrt Habsent.
  rewrite (Insert_absent tableName cfg st v (proj1 Hrt) Habsent).
  split; [reflexivity|]. cbn [fst]. apply Get_after_Put; assumption.
Qed.

End CatalogFacts.

(** ** The reference encoding round-trips every configuration *)

Section ReferenceFacts.

Import document document.reference database.

Lemma append_cons (c : ascii) (s1 s2 : string) :
  String.append (String c s1) s2 = String c (String.append s1 s2).
Proof. reflexivity. Qed.

Lemma append_empty_l (s : string) : String.append EmptyString s = s.
Proof. reflexivity. Qed.

Lemma append_assoc (s1 s2 s3 : string) :
  String.append (String.append s1 s2) s3
  = String.append s1 (String.append s2 s3).
Proof.
  induction s1 as [|c s1 IH]; [reflexivity|].
  rewrite !append_cons. f_equal. exact IH.
Qed.

Lemma append_empty_r (s : string) : String.append s EmptyString = s.
Proof.
  induction s as [|c s IH]; [reflexivity|].
  rewrite append_cons. f_equal. exact IH.
Qed.

Lemma code_byte (z : Z) : code (byte z) = z mod 256.
Proof.
  unfold code, byte. rewrite N_ascii_embedding.
  - apply Z2N.id. apply Z.mod_pos_bound. lia.
  - assert (0 <= z mod 256 < 256) by (apply Z.mod_pos_bound; lia). lia.
Qed.

Lemma read_uvarint_uvarint (fuel : nat) (n : Z) (rest : bytes) :
  0 <= n < 128 ^ Z.of_nat (S fuel) ->
  read_uvarint (String.append (uvarint (S fuel) n) rest) = Some (n, rest).
Proof.
  revert n. induction fuel as [|fuel IH]; intros n Hn;
    cbn [uvarint]; destruct (Z.ltb_spec n 128) as [Hlt|Hge].
  - rewrite append_cons. cbn [read_uvarint]. rewrite code_byte.
    rewrite Z.mod_small by lia.
    destruct (Z.ltb_spec n 128); [reflexivity | lia].
  - change (128 ^ Z.of_nat 1) with 128 in Hn. lia.
  - rewrite append_cons. cbn [read_uvarint]. rewrite code_byte.
    rewrite Z.mod_small by lia.
    destruct (Z.ltb_spec n 128); [reflexivity | lia].
  - rewrite append_cons. cbn [read_uvarint]. rewrite code_byte.
    assert (Hm : 0 <= n mod 128 < 128) by (apply Z.mod_pos_bound; lia).
    rewrite Z.mod_small by lia.
    destruct (Z.ltb_spec (128 + n mod 128) 128); [lia|].
    change (if n / 128 <? 128 then _ else _)
      with (uvarint (S fuel) (n / 128)).
    rewrite IH.
    + f_equal. f_equal. pose proof (Z.div_mod n 128). lia.
    + rewrite (Nat2Z.inj_succ (S fuel)), Z.pow_succ_r in Hn by lia.
      split; [apply Z.div_pos; lia|].
      apply Z.div_lt_upper_bound; lia.
Qed.

Lemma read_bytes_append (s rest : bytes) :
  read_bytes (String.length s) (String.append s rest) = Some (s, rest).
Proof.
  induction s as [|c s IH]; [reflexivity|].
  rewrite append_cons. cbn [String.length read_bytes]. rewrite IH.
  reflexivity.
Qed.

Lemma read_text_put_text (s : string) (rest : bytes) :
  Z.of_nat (String.length s) < 128 ^ 10 ->
  read_text (String.append (put_text s) rest) = Some (s, rest).
Proof.
  intros Hlen. unfold read_text, put_text, put_uvarint.
  rewrite append_assoc, read_uvarint_uvarint
    by (change (Z.of_nat 10) with 10; lia).
  rewrite Nat2Z.id. apply read_bytes_append.
Qed.

Lemma read_big_endian_big_endian (width : nat) (acc z : Z)
    (rest : bytes) :
  read_big_endian width acc (String.append (big_endian width z) rest)
  = Some (acc * 256 ^ Z.of_nat width + z mod 256 ^ Z.of_nat width, rest).
Proof.
  revert acc. induction width as [|width IH]; intros acc.
  - simpl. rewrite Z.mod_1_r. f_equal. f_equal. lia.
  - cbn [big_endian]. rewrite append_cons. cbn [read_big_endian].
    rewrite IH, code_byte. f_equal. f_equal.
    rewrite Nat2Z.inj_succ, Z.pow_succ_r by lia.
    rewrite (Z.mul_comm 256 (256 ^ Z.of_nat width)).
    rewrite (Z.rem_mul_r z (256 ^ Z.of_nat width) 256) by lia.
    lia.
Qed.

Lemma read_value_Text (s : string) (rest : bytes) :
  Z.of_nat (String.length s) < 128 ^ 10 ->
  read_value (String.append (encode_value (TextValue s)) rest)
  = Some (TextValue s, rest).
Proof.
  intros Hlen. unfold encode_value. rewrite append_cons.
  cbn [read_value tag].
  change (code (byte 11)) with 11. cbn [Z.eqb Pos.eqb].
  rewrite read_text_put_text by exact Hlen. reflexivity.
Qed.

Lemma read_value_Uint8 (z : Z) (rest : bytes) :
  0 <= z < 256 ->
  read_value (String.append (encode_value (Uint8Value z)) rest)
  = Some (Uint8Value z, rest).
Proof.
  intros Hz. unfold encode_value. rewrite append_cons.
  cbn [read_value tag].
  change (code (byte 6)) with 6. cbn [Z.eqb Pos.eqb].
  rewrite read_big_endian_big_endian.
  change (256 ^ Z.of_nat 1) with 256.
  rewrite Z.mod_small by lia. reflexivity.
Qed.

Lemma read_value_Int64 (z : Z) (rest : bytes) :
  - 2 ^ 63 <= z < 2 ^ 63 ->
  read_value (String.append (encode_value (Int64Value z)) rest)
  = Some (Int64Value z, rest).
Proof.
  intros Hz. unfold encode_value. rewrite append_cons.
  cbn [read_value tag].
  change (code (byte 5)) with 5. cbn [Z.eqb Pos.eqb].
  rewrite read_big_endian_big_endian.
  change (256 ^ Z.of_nat 8) with (2 ^ 64).
  rewrite Z.mod_mod by lia. rewrite Z.mul_0_l, Z.add_0_l.
  destruct (Z.lt_ge_cases z 0) as [Hneg|Hpos].
  - replace (z mod 2 ^ 64) with (z + 2 ^ 64)
      by (apply (Z.mod_unique_pos _ _ (-1)); lia).
    destruct (Z.ltb_spec (z + 2 ^ 64) (2 ^ 63)); [lia|].
    do 3 f_equal. lia.
  - rewrite Z.mod_small by lia.
    destruct (Z.ltb_spec z (2 ^ 63)); [reflexivity | lia].
Qed.

Lemma find_field_encode_field (n : nat) (field name : string) (v : Value)
    (rest : bytes) :
  Z.of_nat (String.length name) < 128 ^ 10 ->
  read_value (String.append (encode_value v) rest) = Some (v, rest) ->
  find_field (S n) field (String.append (encode_field (name, v)) rest)
  = if String.eqb name field then (v, None) else find_field n field rest.
Proof.
  intros Hname Hv. cbn [find_field]. unfold encode_field. cbn [fst snd].
  rewrite append_assoc, read_text_put_text by exact Hname.
  rewrite Hv. reflexivity.
Qed.

(** Every configuration of the right types whose key name is shorter
    than [2^70] bytes round-trips through the reference encoding. *)
Lemma reference_round_trips (cfg : TableConfig) :
  wf_TableConfig cfg ->
  Z.of_nat (String.length (PrimaryKeyName cfg)) < 128 ^ 10 ->
  round_trips (api := api) cfg
    (fst (EncodeDocument (configFields (api := api) cfg))).
Proof.
  intros [Htp Hlast] Hlen. unfold round_trips.
  assert (Hu : 0 <= uint8 (PrimaryKeyType cfg) < 256)
    by (unfold uint8; apply Z.mod_pos_bound; lia).
  split; [reflexivity|].
  repeat split; try reflexivity;
    cbn [EncodeDocument GetByField api configFields Add List.app List.map
         List.length fst String.concat NewStringValue NewUint8Value
         NewInt64Value];
    unfold put_uvarint;
    rewrite read_uvarint_uvarint
      by (vm_compute; split; [discriminate | reflexivity]);
    change (Z.to_nat (Z.of_nat 3)) with 3%nat;
    rewrite !append_empty_l.
  - rewrite find_field_encode_field;
      [reflexivity | reflexivity | apply read_value_Text, Hlen].
  - rewrite find_field_encode_field;
      [| reflexivity | apply read_value_Text, Hlen].
    cbn [String.eqb Ascii.eqb Bool.eqb andb].
    rewrite find_field_encode_field;
      [reflexivity | reflexivity | apply read_value_Uint8, Hu].
  - rewrite find_field_encode_field;
      [| reflexivity | apply read_value_Text, Hlen].
    cbn [String.eqb Ascii.eqb Bool.eqb andb].
    rewrite find_field_encode_field;
      [| reflexivity | apply read_value_Uint8, Hu].
    cbn [String.eqb Ascii.eqb Bool.eqb andb].
    rewrite <- (append_empty_r (encode_field _)).
    rewrite find_field_encode_field;
      [reflexivity | reflexivity |].
    apply read_value_Int64, Hlast.
Qed.

(** With the reference encoding, [Get] after [Insert] returns the
    configuration that was inserted. *)
Lemma reference_Insert_Get (tableName : string) (cfg : TableConfig)
    (st : gmap string bytes) :
  wf_TableConfig cfg ->
  Z.of_nat (String.length (PrimaryKeyName cfg)) < 128 ^ 10 ->
  st !! tableName = None ->
  Get (api := api) tableName (fst (Insert (api := api) tableName cfg st))
  = (Some cfg, None).
Proof.
  intros Hwf Hlen Habsent.
  pose proof (reference_round_trips cfg Hwf Hlen) as Hrt.
  rewrite (Insert_absent tableName cfg st _ (proj1 Hrt) Habsent).
  cbn [fst]. apply Get_after_Put; assumption.
Qed.

End ReferenceFacts.

Lemma samples_users_encoded :
  document.EncodeDocument
    (database.configFields (api := document.reference.api) samples.users)
  = (samples.users_bytes, None).
Proof. reflexivity. Qed.

(** The stored bytes are written out: [Insert] on the empty store, and
    a second [Insert], of another configuration, under the same name. *)
Lemma Insert_spec_witness :
  database.Insert (api := document.reference.api) "users" samples.users ∅
    = ({[ "users"%string := samples.users_encoded ]}, None) /\
  database.Insert (api := document.reference.api) "users" samples.users_next
    {[ "users"%string := samples.users_encoded ]}
    = ({[ "users"%string := samples.users_encoded ]},
       Some ErrTableAlreadyExists).
Proof.
  assert (Hwf : database.wf_TableConfig samples.users)
    by (unfold database.wf_TableConfig; simpl; lia).
  assert (Hwf' : database.wf_TableConfig samples.users_next)
    by (unfold database.wf_TableConfig; simpl; lia).
  destruct (Insert_spec (api := document.reference.api) "users"
              samples.users ∅ samples.users_encoded Hwf eq_refl)
    as (_ & _ & Habsent).
  destruct (Insert_spec (api := document.reference.api) "users"
              samples.users_next
              {[ "users"%string := samples.users_encoded ]}
              samples.users_next_encoded Hwf' eq_refl)
    as (_ & Hpresent & _).
  split.
  - rewrite Habsent by reflexivity. rewrite insert_empty. reflexivity.
  - apply Hpresent. rewrite lookup_singleton_eq. eauto.
Defined.

(** [Replace] writes the bytes of the new configuration over those of
    the old one. *)
Lemma Replace_Delete_spec_witness :
  (database.Replace (api := document.reference.api) "orders"
     (Some samples.users_next) {[ "users"%string := samples.users_encoded ]}
     = Some ({[ "users"%string := samples.users_encoded ]},
             Some ErrTableNotFound) /\
   database.Delete "orders" {[ "users"%string := samples.users_encoded ]}
     = ({[ "users"%string := samples.users_encoded ]},
        Some ErrTableNotFound)) /\
  (database.Replace (api := document.reference.api) "users"
     (Some samples.users_next) {[ "users"%string := samples.users_encoded ]}
     = Some ({[ "users"%string := samples.users_next_encoded ]}, None) /\
   database.Delete "users" {[ "users"%string := samples.users_encoded ]}
     = (∅, None)).
Proof.
  assert (Hwf : database.wf_TableConfig samples.users_next)
    by (unfold database.wf_TableConfig; simpl; lia).
  destruct (Replace_Delete_spec (api := document.reference.api) "orders"
              samples.users_next
              {[ "users"%string := samples.users_encoded ]}
              samples.users_next_encoded Hwf eq_refl) as [Habsent _].
  destruct (Replace_Delete_spec (api := document.reference.api) "users"
              samples.users_next
              {[ "users"%string := samples.users_encoded ]}
              samples.users_next_encoded Hwf eq_refl) as [_ Hpresent].
  split.
  - destruct Habsent as [Hr Hd]; [reflexivity|]. split; [apply Hr | exact Hd].
  - destruct Hpresent as [Hr Hd]; [rewrite lookup_singleton_eq; eauto|].
    rewrite Hr, Hd, insert_singleton_eq, delete_singleton_eq.
    split; reflexivity.
Defined.

Lemma samples_users_round_trips :
  database.round_trips (api := document.reference.api)
    samples.users samples.users_bytes.
Proof. repeat split; reflexivity. Qed.

Lemma Insert_Get_round_trip_witness :
  snd (database.Insert (api := document.reference.api) "users"
         samples.users ∅) = None /\
  database.Get (api := document.reference.api) "users"
    (fst (database.Insert (api := document.reference.api) "users"
            samples.users ∅))
  = (Some samples.users, None).
Proof.
  apply (Insert_Get_round_trip (api := document.reference.api) "users"
           samples.users ∅ samples.users_bytes).
  - unfold database.wf_TableConfig. simpl. lia.
  - exact samples_users_round_trips.
  - reflexivity.
Defined.

(** ** [Open] *)

Section OpenFacts.

Import genji.
Context {Engine DB badger_Options bolt_Options Logger : Type}.
Variable badger_DefaultOptions : string -> badger_Options.
Variable WithInMemory : badger_Options -> bool -> badger_Options.
Variable WithLogger : badger_Options -> option Logger -> badger_Options.
Variable badgerengine_NewEngine : badger_Options -> Engine * error.
Variable boltengine_NewEngine :
  string -> Z -> option bolt_Options -> Engine * error.
Variable New : Engine -> option DB * error.

(** C9. [Open(":memory:")] constructs the badger engine with the
    default options for the empty path, in memory and without logger;
    for every other path [Open] constructs the bolt engine at that path
    with file mode 0660 (432) and no options. In both cases an error of
    the constructor is returned as it is with a nil database, and
    otherwise the result is that of [New] on the engine. *)
Theorem Open_spec (path : string) :
  (path = ":memory:"%string ->
     Open badger_DefaultOptions WithInMemory WithLogger
          badgerengine_NewEngine boltengine_NewEngine New path
     = wrapped_engine New
         (badgerengine_NewEngine
            (WithLogger (WithInMemory (badger_DefaultOptions "") true)
               None))) /\
  (path <> ":memory:"%string ->
     Open badger_DefaultOptions WithInMemory WithLogger
          badgerengine_NewEngine boltengine_NewEngine New path
     = wrapped_engine New (boltengine_NewEngine path 432 None)).
Proof.
  unfold Open, wrapped_engine. split; intros Hpath.
  - subst path. simpl.
    destruct (badgerengine_NewEngine _) as [ng [e|]]; reflexivity.
  - case_eq (String.eqb path ":memory:"); intros Heq.
    + apply String.eqb_eq in Heq. contradiction.
    + change (octal [0; 6; 6; 0]) with 432.
      destruct (boltengine_NewEngine _ _ _) as [ng [e|]]; reflexivity.
Qed.

End OpenFacts.

Lemma Open_spec_witness :
  samples.Open ":memory:" = (Some ("badger in memory"%string, 0), None) /\
  samples.Open "/var/db/genji" = (Some ("/var/db/genji"%string, 432), None).
Proof.
  split.
  - exact (proj1 (Open_spec (fun dir => (dir, false, Some tt))
                    (fun opts b => (fst (fst opts), b, snd opts))
                    (fun opts l => (fst opts, l))
                    samples.badger samples.bolt samples.new_db ":memory:")
             eq_refl).
  - apply (proj2 (Open_spec (fun dir => (dir, false, Some tt))
                    (fun opts b => (fst (fst opts), b, snd opts))
                    (fun opts l => (fst opts, l))
                    samples.badger samples.bolt samples.new_db
                    "/var/db/genji")).
    discriminate.
Defined.


(** * Further properties

    What the stream operators pass, the export of an iterator, the
    algebra of the logical operators, the catalog of tables and of
    indexes between two calls, and the context of the code
    generator. *)

(** ** What the stream operators pass *)

Section MoreStreamFacts.
Context {Document : Type}.
Implicit Types (i : Iterator Document) (o : StreamOperator Document).

Lemma Iterate_total_callback i {S : Type} (fn : Document -> S -> S * error)
  (st : S) :
(forall d s, snd (fn d s) = None) ->
Iterate i fn st
= (fold_left (fun s d => fst (fn d s)) (fst (collect i)) st,
   snd (collect i)).
Proof.
intros Hfn. unfold collect.
assert (Hsim : sim_out
          (fun log s => s = fold_left (fun s d => fst (fn d s)) log st)
          (fun _ _ => False)
          (Iterate i collect_fn []) (Iterate i fn st)).
{ apply Iterate_simulation; [| tauto | tauto | reflexivity].
  intros d log s ->. left. simpl. rewrite Hfn. split; [reflexivity|].
  rewrite fold_left_app. reflexivity. }
destruct Hsim as [[He Hs]|[]].
destruct (Iterate i fn st) as [s' e]. simpl in *. subst. reflexivity.
Qed.

(** X2. For every stream and every callback that never returns an
  error: [Iterate] passes the callback exactly the documents that a
  collecting callback receives from the stream, in the same order, and
  returns the error that the collecting iteration returns. The
  variables of the callback end as the fold of the callback over those
  documents. *)
Theorem Stream_Iterate_fold (s : Stream Document) {S : Type}
  (fn : Document -> S -> S * error) (st : S) :
(forall d st', snd (fn d st') = None) ->
Stream_Iterate s fn st
= (fold_left (fun st' d => fst (fn d st'))
     (fst (collect (Stream_as_Iterator s))) st,
   snd (collect (Stream_as_Iterator s))).
Proof. intros Hfn. apply Iterate_total_callback, Hfn. Qed.

Lemma count_fold (docs : list Document) (c : Z) :
0 <= c -> c + Z.of_nat (length docs) <= max_int ->
fold_left (fun c' d => fst (count_fn d c')) docs c
= c + Z.of_nat (length docs).
Proof.
revert c. induction docs as [|d docs IH]; intros c Hc Hmax; simpl.
- lia.
- simpl length in Hmax.
  rewrite wrap_int_small by (unfold min_int, max_int in *; lia).
  rewrite IH by lia. lia.
Qed.

(** X3. For every stream that passes no more than [max_int]
  documents: [Count] returns the number of documents the stream passes
  to a callback, together with the error of the iteration. *)
Theorem Count_length (s : Stream Document) :
Z.of_nat (length (fst (collect (Stream_as_Iterator s)))) <= max_int ->
Count s = (Z.of_nat (length (fst (collect (Stream_as_Iterator s)))),
           snd (collect (Stream_as_Iterator s))).
Proof.
intros Hlen. unfold Count, Stream_Iterate.
rewrite Iterate_total_callback by reflexivity.
rewrite count_fold by lia. reflexivity.
Qed.

(** A piped stream whose operator keeps no state and raises no error
  passes the images of the documents. *)
Lemma Pipe_total_operator (s : Stream Document) o
  (g : Document -> option Document) :
(forall r os, snd (op_fn o r os) = (g r, None)) ->
collect (Stream_as_Iterator (Pipe s o))
= (omap g (fst (collect (Stream_as_Iterator s))),
   if is_ErrStreamClosed (snd (collect (Stream_as_Iterator s))) then None
   else snd (collect (Stream_as_Iterator s))).
Proof.
intros Ho. unfold collect at 1, Pipe, Stream_as_Iterator at 1.
cbn [it op]. rewrite Iterate_piped. unfold collect.
assert (Hsim : sim_out
          (fun log (st : op_state o * list Document) =>
             snd st = omap g log)
          (fun _ _ => False)
          (Iterate (Stream_as_Iterator s) collect_fn [])
          (Iterate (Stream_as_Iterator s) (pipe_fn o collect_fn)
             (op_new o, []))).
{ apply Iterate_simulation; [| tauto | tauto | reflexivity].
  intros d log [os out] Hout. simpl in Hout. subst out. left.
  unfold pipe_fn, collect_fn. specialize (Ho d os).
  destruct (op_fn o d os) as [os' [r e]]. simpl in Ho.
  injection Ho as -> ->. 
  destruct (g d) as [d'|] eqn:Hg; simpl; rewrite omap_app; simpl;
    rewrite Hg; simpl; rewrite ?app_nil_r; auto. }
destruct Hsim as [[He Hs]|[]]. rewrite <- He, Hs. reflexivity.
Qed.

(** X4. For every stream and every function that returns no error:
  [Map] passes the images of the documents of the stream, in order,
  without the documents whose image is nil; the error of the mapped
  stream is the error of the stream, or nil when that error is
  [ErrStreamClosed]. *)
Theorem Map_documents (s : Stream Document)
  (fn : Document -> option Document * error) :
(forall d, snd (fn d) = None) ->
collect (Stream_as_Iterator (Map s fn))
= (omap (fun d => fst (fn d)) (fst (collect (Stream_as_Iterator s))),
   if is_ErrStreamClosed (snd (collect (Stream_as_Iterator s))) then None
   else snd (collect (Stream_as_Iterator s))).
Proof.
intros Hfn. apply Pipe_total_operator. intros r os. simpl.
specialize (Hfn r). destruct (fn r) as [d e]. simpl in *. now subst.
Qed.

Lemma omap_filter (p : Document -> bool) (l : list Document) :
omap (fun d => if p d then Some d else None) l = List.filter p l.
Proof.
induction l as [|d l IH]; [reflexivity|].
cbn [omap list_omap List.filter]. rewrite <- IH.
destruct (p d); reflexivity.
Qed.

(** X5. For every stream and every predicate that returns no error:
  [Filter] passes exactly the documents of the stream on which the
  predicate holds, in order; the error of the filtered stream is the
  error of the stream, or nil when that error is [ErrStreamClosed]. *)
Theorem Filter_documents (s : Stream Document)
  (fn : Document -> bool * error) :
(forall d, snd (fn d) = None) ->
collect (Stream_as_Iterator (Filter s fn))
= (List.filter (fun d => fst (fn d)) (fst (collect (Stream_as_Iterator s))),
   if is_ErrStreamClosed (snd (collect (Stream_as_Iterator s))) then None
   else snd (collect (Stream_as_Iterator s))).
Proof.
intros Hfn. rewrite <- omap_filter. apply Pipe_total_operator.
intros r os. simpl. specialize (Hfn r). destruct (fn r) as [ok e].
simpl in *. subst e. destruct ok; reflexivity.
Qed.

(** X6. For every stream and every [n] up to [max_int], negative
  values included: [Offset(n)] passes the documents of the stream
  without the first [n] (all of them when [n] is not positive); the
  error is the error of the stream, or nil when that error is
  [ErrStreamClosed]. *)
Theorem Offset_documents (s : Stream Document) (n : Z) :
n <= max_int ->
collect (Stream_as_Iterator (Offset s n))
= (drop (Z.to_nat n) (fst (collect (Stream_as_Iterator s))),
   if is_ErrStreamClosed (snd (collect (Stream_as_Iterator s))) then None
   else snd (collect (Stream_as_Iterator s))).
Proof.
intros Hn. unfold collect at 1, Offset, Pipe, Stream_as_Iterator at 1.
cbn [it op]. rewrite Iterate_piped. unfold collect.
assert (Hsim : sim_out
          (fun log (st : Z * list Document) =>
             fst st = Z.min (Z.max n 0) (Z.of_nat (length log)) /\
             snd st = drop (Z.to_nat n) log)
          (fun _ _ => False)
          (Iterate (Stream_as_Iterator s) collect_fn [])
          (Iterate (Stream_as_Iterator s)
             (pipe_fn (offset_op n) collect_fn)
             (op_new (offset_op n), []))).
{ apply Iterate_simulation; [| tauto | tauto |].
  - intros d log [sk out] [Hsk Hout]. simpl in *. left.
    destruct (Z.ltb_spec sk n) as [Hlt|Hge]; simpl.
    + split; [reflexivity|]. rewrite length_app. simpl.
      rewrite wrap_int_small by (unfold min_int, max_int in *; lia).
      split; [lia|].
      rewrite Hout, !drop_ge by (rewrite ?length_app; simpl; lia).
      reflexivity.
    + split; [reflexivity|]. rewrite length_app. simpl.
      split; [lia|]. rewrite Hout, drop_app_le by lia. reflexivity.
  - simpl. rewrite drop_nil. split; [lia | reflexivity]. }
destruct Hsim as [[He [_ Hs]]|[]].
destruct (Iterate (Stream_as_Iterator s) collect_fn []) as [log e1],
  (Iterate (Stream_as_Iterator s) (pipe_fn (offset_op n) collect_fn)
     (op_new (offset_op n), [])) as [[sk out] e].
cbn [fst snd] in *. subst. reflexivity.
Qed.

(** X7. For every stream and every [n] up to [max_int]: [Limit(n)]
  passes the first [n] documents of the stream, and all of them when
  the stream has fewer; when [n] is zero or negative the callback of
  [Iterate] is never called, so its variables keep their values. *)
Theorem Limit_documents (s : Stream Document) (n : Z) :
n <= max_int ->
fst (collect (Stream_as_Iterator (Limit s n)))
  = take (Z.to_nat n) (fst (collect (Stream_as_Iterator s))) /\
(n <= 0 ->
 forall (S : Type) (fn : Document -> S -> S * error) (st : S),
   fst (Stream_Iterate (Limit s n) fn st) = st).
Proof.
intros Hn. split.
- unfold collect at 1, Limit, Pipe, Stream_as_Iterator at 1.
  cbn [it op]. rewrite Iterate_piped. unfold collect. cbn [fst].
  assert (Hsim : sim_out
            (fun log (st : Z * list Document) =>
               snd st = log /\ fst st = Z.of_nat (length log) /\
               (length log <= Z.to_nat n)%nat)
            (fun log (st : Z * list Document) =>
               n <= fst st /\ snd st = take (Z.to_nat n) log /\
               (Z.to_nat n <= length log)%nat)
            (Iterate (Stream_as_Iterator s) collect_fn [])
            (Iterate (Stream_as_Iterator s)
               (pipe_fn (limit_op n) collect_fn)
               (op_new (limit_op n), []))).
  { apply Iterate_simulation.
    - intros d log [c out] (Hout & Hc & Hle). simpl in *. subst out.
      destruct (Z.ltb_spec c n) as [Hlt|Hge]; simpl.
      + left. simpl. split; [reflexivity|]. rewrite length_app. simpl.
        rewrite wrap_int_small by (unfold min_int, max_int in *; lia).
        repeat split; lia.
      + right. simpl. rewrite length_app. simpl.
        repeat split; try lia.
        rewrite take_app_le by lia. rewrite take_ge by lia. reflexivity.
    - intros d log [c out] (Hc & Hout & Hle). simpl in *.
      rewrite length_app. simpl. repeat split; try lia.
      rewrite take_app_le by lia. exact Hout.
    - intros d log [c out] (Hc & Hout & Hle). simpl in *.
      destruct (Z.ltb_spec c n) as [Hlt|_]; [lia|]. simpl. auto.
    - simpl. repeat split; lia. }
  destruct (Iterate (Stream_as_Iterator s) collect_fn []) as [log e1],
    (Iterate (Stream_as_Iterator s)
       (pipe_fn (limit_op n) collect_fn) (op_new (limit_op n), []))
      as [[c out] e].
  destruct Hsim as [[_ (Hout & Hc & Hle)]|(Hc & Hout & Hle)];
    cbn [fst snd] in *; [|exact Hout].
  subst out. rewrite take_ge by lia. reflexivity.
- intros Hneg S fn st.
  unfold Stream_Iterate, Limit, Pipe, Stream_as_Iterator at 1.
  cbn [it op]. rewrite Iterate_piped. cbn [fst].
  pose proof (Iterate_invariant (Stream_as_Iterator s) (Z * S)
                (fun c => fst c = 0 /\ snd c = st)
                (pipe_fn (limit_op n) fn)) as Hinv.
  destruct (Hinv) with (st := (0, st)) as [_ H]; [| auto | exact H].
  intros d [c s'] [Hc Hs]. simpl in *. subst c s'.
  destruct (Z.ltb_spec 0 n) as [Hlt|_]; [lia|]. simpl. auto.
Qed.

(** X8. A [multiIterator] over iterators built by [NewIterator]
  iterates as [NewIterator] over the concatenation of their documents:
  same calls of the callback, same final state, same error. *)
Theorem multiIterator_documents (ls : list (list Document)) {S : Type}
  (fn : Document -> S -> S * error) (st : S) :
Iterate (multiIterator (List.map NewIterator ls)) fn st
= Iterate (NewIterator (concat ls)) fn st.
Proof.
rewrite Iterate_multi. unfold NewIterator. cbn [Iterate].
revert st. induction ls as [|l ls IH]; intros st; [reflexivity|].
cbn [List.map concat]. rewrite range_until_cons, range_until_app.
cbn [Iterate]. destruct (range_until fn l st) as [st1 [e|]];
  [reflexivity | apply IH].
Qed.

Lemma fold_Append_multi (l its : list (Iterator Document)) :
fold_left Append its {| it := Some (multiIterator l); op := None |}
= {| it := Some (multiIterator (l ++ its)); op := None |}.
Proof.
revert l. induction its as [|i its IH]; intros l; simpl.
- rewrite app_nil_r. reflexivity.
- change (Append {| it := Some (multiIterator l); op := None |} i)
    with {| it := Some (multiIterator (l ++ [i])); op := None |}.
  rewrite IH, <- app_assoc. reflexivity.
Qed.

(** A stream that grows by [Append], on the iterators it holds: it
  iterates them in order and stops at the first error. *)
Lemma Append_fold_Iterate (i0 : Iterator Document)
  (its : list (Iterator Document)) {S : Type}
  (fn : Document -> S -> S * error) (st : S) :
Stream_Iterate (fold_left Append its (NewStream i0)) fn st
= range_until (fun i => Iterate i fn) (i0 :: its) st.
Proof.
destruct its as [|i1 its].
- cbn [fold_left]. unfold Stream_Iterate, NewStream, Stream_as_Iterator.
  cbn [it op]. rewrite Iterate_unpiped, range_until_cons.
  destruct (Iterate i0 fn st) as [st1 [e|]]; reflexivity.
- cbn [fold_left].
  assert (Hflat : forall l,
             Append (NewStream i0) i1
             = {| it := Some (multiIterator l); op := None |} ->
             range_until (fun i => Iterate i fn) l st
             = range_until (fun i => Iterate i fn) [i0; i1] st ->
             Stream_Iterate
               (fold_left Append its (Append (NewStream i0) i1)) fn st
             = range_until (fun i => Iterate i fn) (i0 :: i1 :: its) st).
  { intros l -> Hl. rewrite fold_Append_multi.
    unfold Stream_Iterate, Stream_as_Iterator. cbn [it op].
    rewrite Iterate_unpiped, Iterate_multi, range_until_app, Hl.
    change (i0 :: i1 :: its) with ([i0; i1] ++ its).
    rewrite range_until_app. reflexivity. }
  destruct i0 as [rr|it' o'|l0].
  + apply (Hflat _ eq_refl). reflexivity.
  + apply (Hflat _ eq_refl). reflexivity.
  + apply (Hflat _ eq_refl).
    rewrite range_until_app, (range_until_cons _ (multiIterator l0)).
    rewrite Iterate_multi. reflexivity.
Qed.

Lemma range_until_result {A S : Type} (P : S * error -> Prop)
  (step : A -> S -> S * error) (l : list A) :
(forall st, P (st, None)) ->
Forall (fun x => forall st, P (step x st)) l ->
forall st, P (range_until step l st).
Proof.
intros Hnil. induction 1 as [|x l Hx _ IH]; intros st; simpl; [apply Hnil|].
specialize (Hx st). destruct (step x st) as [st' [e|]]; [exact Hx | apply IH].
Qed.

Lemma raises_multi (l : list (Iterator Document)) (err : error) :
raises (multiIterator l) err <-> Exists (fun i => raises i err) l.
Proof.
induction l as [|x l IH]; simpl.
- rewrite Exists_nil. reflexivity.
- rewrite Exists_cons. simpl in IH. rewrite IH. reflexivity.
Qed.

Lemma Iterate_result i :
forall (S : Type) (fn : Document -> S -> S * error)
       (P : S * error -> Prop) (Q : error -> Prop),
  (forall d s, stops_only (snd (fn d s)) \/ P (fn d s) \/ Q (snd (fn d s))) ->
  forall st,
    stops_only (snd (Iterate i fn st)) \/ P (Iterate i fn st)
    \/ Q (snd (Iterate i fn st)) \/ raises i (snd (Iterate i fn st)).
Proof.
induction i as [rr|o|i o IH|l IH] using Iterator_induction;
  intros S fn P Q Hfn st.
- cbn [Iterate].
  apply (range_until_result
           (fun r => stops_only (snd r) \/ P r \/ Q (snd r) \/ False)).
  + intros st'. left. left. reflexivity.
  + apply Forall_forall. intros d _ st'.
    destruct (Hfn d st') as [H|[H|H]]; auto.
- left. left. reflexivity.
- destruct o as [o|].
  + rewrite Iterate_piped. cbn [fst snd raises].
    specialize (IH _ (pipe_fn o fn)
                  (fun r => P (snd (fst r), snd r))
                  (fun e => Q e \/ exists r os, snd (snd (op_fn o r os)) = e)).
    destruct (IH) with (st := (op_new o, st)) as [H|[H|[[H|H]|H]]].
    * intros d [os s]. unfold pipe_fn.
      destruct (op_fn o d os) as [os' [r e]] eqn:Hop.
      destruct e as [e|]; cbn [fst snd].
      -- right. right. right. exists d, os. rewrite Hop. reflexivity.
      -- destruct r as [r|]; [|left; left; reflexivity].
         destruct (Hfn r s) as [H|[H|H]];
           destruct (fn r s) as [s' e']; cbn [fst snd] in *; auto.
    * left. left. apply stops_only_close, H.
    * destruct (Iterate i (pipe_fn o fn) (op_new o, st)) as [[os' st'] e].
      cbn [fst snd] in *. destruct e as [[]|]; cbn [is_ErrStreamClosed]; auto.
      left. left. reflexivity.
    * destruct (snd (Iterate i (pipe_fn o fn) (op_new o, st))) as [[]|];
        cbn [is_ErrStreamClosed]; auto. left. left. reflexivity.
    * destruct (snd (Iterate i (pipe_fn o fn) (op_new o, st))) as [[]|];
        cbn [is_ErrStreamClosed]; auto 6. left. left. reflexivity.
    * destruct (snd (Iterate i (pipe_fn o fn) (op_new o, st))) as [[]|];
        cbn [is_ErrStreamClosed]; auto 6. left. left. reflexivity.
  + rewrite Iterate_unpiped. cbn [raises]. apply IH, Hfn.
- rewrite Iterate_multi.
  apply (range_until_result
           (fun r => stops_only (snd r) \/ P r \/ Q (snd r)
                     \/ raises (multiIterator l) (snd r))).
  + intros st'. left. left. reflexivity.
  + rewrite Forall_forall in IH. apply Forall_forall. intros i Hin st'.
    destruct (IH i Hin _ fn P Q Hfn st') as [H|[H|[H|H]]]; auto.
    right. right. right. apply raises_multi, Exists_exists. eauto.
Qed.

(** X10. [Iterate] invents no error. For every iterator, callback and
  state, the error it returns is nil, or [ErrStreamClosed], or the
  result is one that the callback returned on some document, or the
  error is one that an operator inside the iterator returns. *)
Theorem Iterate_error_source i {S : Type} (fn : Document -> S -> S * error)
  (st : S) :
snd (Iterate i fn st) = None
\/ snd (Iterate i fn st) = Some ErrStreamClosed
\/ (exists d st', fn d st' = Iterate i fn st)
\/ raises i (snd (Iterate i fn st)).
Proof.
destruct (Iterate_result i S fn (fun r => exists d st', fn d st' = r)
            (fun _ => False)) with (st := st) as [[H|H]|[H|[[]|H]]]; auto.
intros d s. right. left. eauto.
Qed.
End MoreStreamFacts.

Lemma First_linear_witness :
  First (Map samples.three samples.add_ten) = (Some 11%nat, None).
Proof.
  exact (First_linear (Map samples.three samples.add_ten) I).
Defined.

Lemma Stream_Iterate_fold_witness :
  Stream_Iterate samples.three (fun d total => ((total + d)%nat, None)) 0%nat
  = (6%nat, None).
Proof.
  exact (Stream_Iterate_fold samples.three
           (fun d total => ((total + d)%nat, None)) 0%nat
           (fun _ _ => eq_refl)).
Defined.

Lemma Count_length_witness : Count samples.three = (3, None).
Proof.
  apply (Count_length samples.three). vm_compute. discriminate.
Defined.

Lemma Map_documents_witness :
  collect (Stream_as_Iterator (Map samples.three samples.add_ten))
  = ([11; 12; 13]%nat, None).
Proof.
  exact (Map_documents samples.three samples.add_ten (fun _ => eq_refl)).
Defined.

Lemma Filter_documents_witness :
  collect (Stream_as_Iterator
             (Filter samples.three (fun d => (Nat.odd d, None))))
  = ([1; 3]%nat, None).
Proof.
  exact (Filter_documents samples.three (fun d => (Nat.odd d, None))
           (fun _ => eq_refl)).
Defined.

Lemma Offset_documents_witness :
  collect (Stream_as_Iterator (Offset samples.three 1)) = ([2; 3]%nat, None).
Proof.
  apply (Offset_documents samples.three 1). vm_compute. discriminate.
Defined.

Lemma Limit_documents_witness :
  fst (collect (Stream_as_Iterator (Limit samples.three 2))) = [1; 2]%nat /\
  fst (Stream_Iterate (Limit samples.three 0) samples.always_stop 5) = 5.
Proof.
  split.
  - refine (proj1 (Limit_documents samples.three 2 _)).
    vm_compute. discriminate.
  - refine (proj2 (Limit_documents samples.three 0 _) _ Z
              samples.always_stop 5);
      vm_compute; discriminate.
Defined.

(** ** Exporting an iterator *)

Section ExportFacts.
Context {Document Value W : Type}.
Variable fields : Document -> list (string * Value) * error.
Variable Value_String : Value -> string.
Variable csv_Write : list string -> W -> W * error.
Variable csv_Flush : W -> W.
Variable json_Encode : Document -> W -> W * error.

Lemma csv_line (fs : list (string * Value)) (line : list string) :
fold_left (fun line fv => line ++ [Value_String (snd fv)]) fs line
= line ++ List.map (fun fv => Value_String (snd fv)) fs.
Proof.
revert line. induction fs as [|f fs IH]; intros line; simpl.
- rewrite app_nil_r. reflexivity.
- rewrite IH, <- app_assoc. reflexivity.
Qed.

(** X11. For documents whose fields iterate without error and a
  writer whose [Write] returns no error: [IteratorToCSV] writes one
  record per document of the iterator, in order, holding the strings
  of the values of its fields and nothing left from the document
  before; it flushes the writer and returns nil when the iteration
  returns nil, and returns the error of the iteration without flushing
  otherwise. *)
Theorem IteratorToCSV_records (w : W) (s : Iterator Document) :
(forall r, snd (fields r) = None) ->
(forall line cw, snd (csv_Write line cw) = None) ->
let written :=
  fold_left (fun cw r => fst (csv_Write (csv_record fields Value_String r) cw))
    (fst (collect s)) w in
IteratorToCSV fields Value_String csv_Write csv_Flush w s
= match snd (collect s) with
  | None => (csv_Flush written, None)
  | Some e => (written, Some e)
  end.
Proof.
intros Hfields Hwrite written. unfold IteratorToCSV.
rewrite Iterate_total_callback.
- assert (Hfold : forall docs line cw,
             snd (fold_left
                    (fun st r =>
                       fst (csv_fn fields Value_String csv_Write r st))
                    docs (line, cw))
             = fold_left
                 (fun cw r =>
                    fst (csv_Write (csv_record fields Value_String r) cw))
                 docs cw).
  { induction docs as [|r docs IH]; intros line cw; [reflexivity|].
    cbn [fold_left]. unfold csv_fn at 2, csv_record at 2.
    specialize (Hfields r). destruct (fields r) as [fs e].
    cbn [fst snd] in *. subst e. rewrite csv_line. cbn [take app].
    specialize (Hwrite (List.map (fun fv => Value_String (snd fv)) fs) cw).
    destruct (csv_Write _ cw) as [cw' e']. cbn [fst snd] in *.
    apply IH. }
  specialize (Hfold (fst (collect s)) [] w).
  destruct (fold_left _ (fst (collect s)) ([], w)) as [line cw'].
  cbn [snd] in Hfold. subst cw'.
  destruct (snd (collect s)); reflexivity.
- intros r [line cw]. unfold csv_fn.
  specialize (Hfields r). destruct (fields r) as [fs e].
  cbn [snd] in Hfields. subst e.
  specialize (Hwrite (fold_left (fun line fv => line ++ [Value_String (snd fv)])
                        fs (take 0 line)) cw).
  destruct (csv_Write _ cw) as [cw' e']. exact Hwrite.
Qed.

(** X12. For an encoder that returns no error: [IteratorToJSON]
  encodes every document of the iterator once, in order, and returns
  the error of the iteration. *)
Theorem IteratorToJSON_documents (w : W) (s : Iterator Document) :
(forall r enc, snd (json_Encode r enc) = None) ->
IteratorToJSON json_Encode w s
= (fold_left (fun enc r => fst (json_Encode r enc)) (fst (collect s)) w,
   snd (collect s)).
Proof. intros Henc. apply Iterate_total_callback, Henc. Qed.
End ExportFacts.

Lemma IteratorToCSV_records_witness :
  IteratorToCSV samples.row_fields samples.digit samples.write_line
    samples.flush ([], false) (Stream_as_Iterator samples.rows)
  = (([["1"; "2"]; ["3"]]%string, true), None).
Proof.
  exact (IteratorToCSV_records samples.row_fields samples.digit
           samples.write_line samples.flush ([], false)
           (Stream_as_Iterator samples.rows)
           (fun _ => eq_refl) (fun _ _ => eq_refl)).
Defined.

Lemma IteratorToJSON_documents_witness :
  IteratorToJSON samples.encode_number [] (Stream_as_Iterator samples.three)
  = (["1"; "2"; "3"]%string, None).
Proof.
  exact (IteratorToJSON_documents samples.encode_number []
           (Stream_as_Iterator samples.three) (fun _ _ => eq_refl)).
Defined.

(** ** The algebra of [And] and [Or] *)

Section OperatorAlgebra.

Import expr.
Context {Value EvalStack : Type}.
Variable IsTruthy : Value -> bool.
Variable trueLitteral falseLitteral : Value.
Implicit Types (a b c : @Expr Value EvalStack) (ctx : EvalStack).

Lemma And_Eval a b ctx :
  Eval (And IsTruthy trueLitteral falseLitteral a b) ctx =
    let '(s, err) := Eval a ctx in
    if is_Some_b err || negb (IsTruthy s) then (falseLitteral, err)
    else
      let '(s, err) := Eval b ctx in
      if is_Some_b err || negb (IsTruthy s) then (falseLitteral, err)
      else (trueLitteral, None).
Proof. reflexivity. Qed.

Lemma Or_Eval a b ctx :
  Eval (Or IsTruthy trueLitteral falseLitteral a b) ctx =
    let '(s, err) := Eval a ctx in
    if is_Some_b err then (falseLitteral, err)
    else if IsTruthy s then (trueLitteral, None)
    else
      let '(s, err) := Eval b ctx in
      if is_Some_b err then (falseLitteral, err)
      else if IsTruthy s then (trueLitteral, None)
      else (falseLitteral, None).
Proof. reflexivity. Qed.

(** X13. Where the true literal is truthy and the false literal is
    not: [And] and [Or] are associative. For all expressions [a], [b],
    [c] and every evaluation stack, [And(And(a, b), c)] evaluates to the
    same value and error as [And(a, And(b, c))], and likewise for
    [Or]. *)
Theorem And_Or_associative a b c ctx :
  IsTruthy trueLitteral = true -> IsTruthy falseLitteral = false ->
  Eval (And IsTruthy trueLitteral falseLitteral
          (And IsTruthy trueLitteral falseLitteral a b) c) ctx
  = Eval (And IsTruthy trueLitteral falseLitteral a
            (And IsTruthy trueLitteral falseLitteral b c)) ctx /\
  Eval (Or IsTruthy trueLitteral falseLitteral
          (Or IsTruthy trueLitteral falseLitteral a b) c) ctx
  = Eval (Or IsTruthy trueLitteral falseLitteral a
            (Or IsTruthy trueLitteral falseLitteral b c)) ctx.
Proof.
  intros Ht Hf. rewrite !And_Eval, !Or_Eval.
  split.
  - destruct (Eval a ctx) as [sa [ea|]]; cbn [is_Some_b orb negb];
      [reflexivity|].
    destruct (IsTruthy sa); cbn [negb];
      [|rewrite Hf; reflexivity].
    destruct (Eval b ctx) as [sb [eb|]]; cbn [is_Some_b orb negb];
      [reflexivity|].
    destruct (IsTruthy sb); cbn [negb];
      [|rewrite Hf; reflexivity].
    rewrite Ht. cbn [negb].
    destruct (Eval c ctx) as [sc [ec|]]; cbn [is_Some_b orb negb];
      [reflexivity|].
    destruct (IsTruthy sc); cbn [negb]; [rewrite Ht|rewrite Hf];
      reflexivity.
  - destruct (Eval a ctx) as [sa [ea|]]; cbn [is_Some_b];
      [reflexivity|].
    destruct (IsTruthy sa); [rewrite Ht; reflexivity|].
    destruct (Eval b ctx) as [sb [eb|]]; cbn [is_Some_b];
      [reflexivity|].
    destruct (IsTruthy sb); [rewrite Ht; reflexivity|].
    rewrite Hf.
    destruct (Eval c ctx) as [sc [ec|]]; cbn [is_Some_b];
      [reflexivity|].
    destruct (IsTruthy sc); [rewrite Ht|rewrite Hf]; reflexivity.
Qed.

(** X14. For two expressions that both evaluate without error, the
    order of the operands of [And] and of [Or] does not change the
    result. *)
Theorem And_Or_commute_without_error a b ctx :
  snd (Eval a ctx) = None -> snd (Eval b ctx) = None ->
  Eval (And IsTruthy trueLitteral falseLitteral a b) ctx
  = Eval (And IsTruthy trueLitteral falseLitteral b a) ctx /\
  Eval (Or IsTruthy trueLitteral falseLitteral a b) ctx
  = Eval (Or IsTruthy trueLitteral falseLitteral b a) ctx.
Proof.
  intros Ha Hb. rewrite !And_Eval, !Or_Eval.
  destruct (Eval a ctx) as [sa ea], (Eval b ctx) as [sb eb].
  cbn [snd] in Ha, Hb. subst ea eb. cbn [is_Some_b orb].
  destruct (IsTruthy sa), (IsTruthy sb); split; reflexivity.
Qed.

(** X15. [And(a, b).Eval] returns an error [e] exactly when [a]
    returns [e], or [a] evaluates without error to a truthy value and
    [b] returns [e]; [Or(a, b).Eval] returns [e] exactly when [a]
    returns [e], or [a] evaluates without error to a falsy value and [b]
    returns [e]. The value returned with an error is the false
    literal. *)
Theorem And_Or_error a b ctx (e : Err) :
  let truthy (x : @Expr Value EvalStack) :=
    exists s, Eval x ctx = (s, None) /\ IsTruthy s = true in
  let falsy (x : @Expr Value EvalStack) :=
    exists s, Eval x ctx = (s, None) /\ IsTruthy s = false in
  (snd (Eval (And IsTruthy trueLitteral falseLitteral a b) ctx) = Some e <->
     snd (Eval a ctx) = Some e \/ truthy a /\ snd (Eval b ctx) = Some e) /\
  (snd (Eval (Or IsTruthy trueLitteral falseLitteral a b) ctx) = Some e <->
     snd (Eval a ctx) = Some e \/ falsy a /\ snd (Eval b ctx) = Some e) /\
  (forall v, Eval (And IsTruthy trueLitteral falseLitteral a b) ctx
               = (v, Some e) -> v = falseLitteral) /\
  (forall v, Eval (Or IsTruthy trueLitteral falseLitteral a b) ctx
               = (v, Some e) -> v = falseLitteral).
Proof.
  intros truthy falsy. subst truthy falsy. rewrite !And_Eval, !Or_Eval.
  destruct (Eval a ctx) as [sa [ea|]]; cbn [is_Some_b orb snd].
  { repeat split; try (intros v [= <- _]; reflexivity);
      try (intros [= ->]; left; reflexivity);
      (intros [H|[(s & [=] & _) _]]; exact H). }
  destruct (IsTruthy sa) eqn:Hsa; cbn [negb].
  - destruct (Eval b ctx) as [sb [eb|]]; cbn [is_Some_b orb snd].
    + repeat split; try (intros v [=]; congruence).
      * intros [= ->]. right. eauto.
      * intros [[=]|[_ H]]; exact H.
      * intros [=].
      * intros [[=]|[(s & [= <-] & Hs) _]]. congruence.
    + destruct (IsTruthy sb); cbn [negb snd]; repeat split;
        try (intros v [=]; congruence); try (intros [=]);
        try (intros [[=]|[_ [=]]]).
  - destruct (Eval b ctx) as [sb [eb|]]; cbn [is_Some_b orb snd].
    + repeat split; try (intros v [=]; congruence).
      * intros [=].
      * intros [[=]|[(s & [= <-] & Hs) _]]. congruence.
      * intros [= ->]. right. eauto.
      * intros [[=]|[_ H]]; exact H.
    + destruct (IsTruthy sb); cbn [negb snd]; repeat split;
        try (intros v [=]; congruence); try (intros [=]);
        try (intros [[=]|[_ [=]]]).
Qed.

End OperatorAlgebra.

(** The operand in the middle is one whose evaluation fails. *)
Lemma And_Or_associative_witness :
  expr.Eval
    (expr.And id true false
       (expr.And id true false (samples.literal true) samples.broken)
       (samples.literal false)) tt
  = expr.Eval
      (expr.And id true false (samples.literal true)
         (expr.And id true false samples.broken (samples.literal false))) tt /\
  expr.Eval
    (expr.Or id true false
       (expr.Or id true false (samples.literal true) samples.broken)
       (samples.literal false)) tt
  = expr.Eval
      (expr.Or id true false (samples.literal true)
         (expr.Or id true false samples.broken (samples.literal false))) tt.
Proof.
  exact (And_Or_associative id true false (samples.literal true)
           samples.broken (samples.literal false) tt eq_refl eq_refl).
Defined.

Lemma And_Or_commute_without_error_witness :
  expr.Eval (expr.And id true false (samples.literal true)
               (samples.literal false)) tt
  = expr.Eval (expr.And id true false (samples.literal false)
                 (samples.literal true)) tt /\
  expr.Eval (expr.Or id true false (samples.literal true)
               (samples.literal false)) tt
  = expr.Eval (expr.Or id true false (samples.literal false)
                 (samples.literal true)) tt.
Proof.
  exact (And_Or_commute_without_error id true false (samples.literal true)
           (samples.literal false) tt eq_refl eq_refl).
Defined.

(** ** The table catalog over any store *)

Section CatalogOverAnyStore.

Import document database.
Context {St : Type} {store : engine.Store St} {api : API}.

(** X16. Over every store and every encoding: [Get] returns either a
    configuration and a nil error, or a nil configuration and an error;
    never both, never neither. *)
Theorem Get_config_or_error (tableName : string) (st : St) :
  (exists cfg, Get tableName st = (Some cfg, None)) \/
  (exists e, Get tableName st = (None, Some e)).
Proof.
  unfold Get.
  destruct (engine.Get (tableName : bytes) st) as [v [e|]].
  - right. destruct e; cbn [is_ErrKeyNotFound]; eauto.
  - cbn [is_ErrKeyNotFound].
    destruct (GetByField "PrimaryKeyName" v) as [f1 [e|]]; [eauto|].
    destruct (ConvertToString f1) as [name [e|]]; [eauto|].
    destruct (GetByField "PrimaryKeyType" v) as [f2 [e|]]; [eauto|].
    destruct (ConvertToUint8 f2) as [tp [e|]]; [eauto|].
    destruct (GetByField "lastKey" v) as [f3 [e|]]; [eauto|].
    destruct (ConvertToInt64 f3) as [last [e|]]; [eauto|].
    left. eauto.
Qed.

(** X17. Over every store: when the store's [Get] fails with an error
    other than [ErrKeyNotFound], [Insert], [Replace] (a nil
    configuration included) and [Get] of the catalog return that very
    error, and [Insert] and [Replace] leave the store as it is. *)
Theorem store_error_surfaces (tableName : string) (st : St) (v : bytes)
    (e : Err) :
  engine.Get (tableName : bytes) st = (v, Some e) -> e <> ErrKeyNotFound ->
  (forall cfg, Insert tableName cfg st = (st, Some e)) /\
  (forall p, Replace tableName p st = Some (st, Some e)) /\
  Get tableName st = (None, Some e).
Proof.
  intros Hget He. unfold Insert, Replace, Get. rewrite Hget.
  assert (Hk : is_ErrKeyNotFound (Some e) = false)
    by (destruct e; try reflexivity; contradiction).
  rewrite Hk. cbn [negb]. repeat split; reflexivity.
Qed.

(** X18. [Insert] and [Replace] write at most once and last. Over
    every store, either the call is the store's [Put] of the encoded
    configuration under the table name, reached only after the store's
    [Get] answered [ErrKeyNotFound] (for [Insert]) or nil (for
    [Replace]) and the encoding succeeded, or the call returns an error
    and the store it was given. *)
Theorem catalog_writes_last (tableName : string) (cfg : TableConfig)
    (st : St) :
  let enc := EncodeDocument (configFields cfg) in
  (Insert tableName cfg st = engine.Put (tableName : bytes) (fst enc) st /\
     snd (engine.Get (tableName : bytes) st) = Some ErrKeyNotFound /\
     snd enc = None
   \/ exists e, Insert tableName cfg st = (st, Some e)) /\
  (Replace tableName (Some cfg) st
     = Some (engine.Put (tableName : bytes) (fst enc) st) /\
     snd (engine.Get (tableName : bytes) st) = None /\ snd enc = None
   \/ exists e, Replace tableName (Some cfg) st = Some (st, Some e)).
Proof.
  intros enc. subst enc. unfold Insert, Replace.
  destruct (engine.Get (tableName : bytes) st) as [old [e|]];
    destruct (EncodeDocument (configFields cfg)) as [v [e'|]];
    cbn [fst snd]; try destruct e; cbn [is_ErrKeyNotFound negb];
    split; eauto.
Qed.

End CatalogOverAnyStore.

Lemma store_error_surfaces_witness :
  (forall cfg,
     database.Insert (store := samples.closed_store)
       (api := document.reference.api) "users" cfg tt
     = (tt, Some samples.closed)) /\
  (forall p,
     database.Replace (store := samples.closed_store)
       (api := document.reference.api) "users" p tt
     = Some (tt, Some samples.closed)) /\
  database.Get (store := samples.closed_store)
    (api := document.reference.api) "users" tt
  = (None, Some samples.closed).
Proof.
  apply (store_error_surfaces (store := samples.closed_store)
           (api := document.reference.api) "users" tt EmptyString
           samples.closed);
    [reflexivity | discriminate].
Defined.

(** ** The table catalog between two calls *)

Section CatalogOverMapStore.

Import document database.
Context {api : API}.
Implicit Types (st : gmap string bytes) (cfg : TableConfig).

Lemma Get_lookup (tableName : string) st1 st2 :
  st1 !! tableName = st2 !! tableName ->
  Get tableName st1 = Get tableName st2.
Proof. intros H. unfold Get. rewrite !Get_map, H. reflexivity. Qed.

Lemma Insert_lookup (tableName other : string) cfg st :
  tableName <> other ->
  fst (Insert tableName cfg st) !! other = st !! other.
Proof.
  intros Hne. unfold Insert. rewrite Get_map.
  destruct (st !! tableName); [reflexivity|]. cbn [is_ErrKeyNotFound negb].
  destruct (EncodeDocument (configFields cfg)) as [v [e|]]; [reflexivity|].
  cbn [engine.Put engine.mapStore fst]. apply lookup_insert_ne, Hne.
Qed.

Lemma Replace_lookup (tableName other : string) p st r :
  tableName <> other -> Replace tableName p st = Some r ->
  fst r !! other = st !! other.
Proof.
  intros Hne. unfold Replace. rewrite Get_map.
  destruct (st !! tableName); cbn [is_ErrKeyNotFound].
  - destruct p as [cfg|]; [|discriminate].
    destruct (EncodeDocument (configFields cfg)) as [v [e|]];
      intros [= <-]; [reflexivity|].
    cbn [engine.Put engine.mapStore fst]. apply lookup_insert_ne, Hne.
  - intros [= <-]. reflexivity.
Qed.

Lemma Delete_lookup (tableName other : string) st :
  tableName <> other ->
  fst (Delete tableName st) !! other = st !! other.
Proof.
  intros Hne. unfold Delete. rewrite Delete_map.
  destruct (st !! tableName); cbn [is_ErrKeyNotFound fst]; [|reflexivity].
  apply lookup_delete_ne, Hne.
Qed.

(** X19. Over the map store: [Insert], [Replace] and [Delete] of one
    table do not change what [Get] returns for another table name. *)
Theorem catalog_frame (tableName other : string) cfg st :
  tableName <> other ->
  Get other (fst (Insert tableName cfg st)) = Get other st /\
  (forall p r, Replace tableName p st = Some r ->
               Get other (fst r) = Get other st) /\
  Get other (fst (Delete tableName st)) = Get other st.
Proof.
  intros Hne. repeat split.
  - apply Get_lookup, Insert_lookup, Hne.
  - intros p r Hr. apply Get_lookup. eapply Replace_lookup; eassumption.
  - apply Get_lookup, Delete_lookup, Hne.
Qed.

(** X20. Over the map store, after [Insert] has stored a table that
    was absent: a second [Insert] under the same name, with any
    configuration, returns [ErrTableAlreadyExists] and changes nothing,
    and [Delete] returns nil and gives back the store as it was before
    the [Insert]. *)
Theorem Insert_then (tableName : string) cfg st (v : bytes) :
  EncodeDocument (configFields cfg) = (v, None) ->
  st !! tableName = None ->
  let st' := fst (Insert tableName cfg st) in
  (forall cfg',
     Insert tableName cfg' st' = (st', Some ErrTableAlreadyExists)) /\
  Delete tableName st' = (st, None).
Proof.
  intros Henc Habsent st'. subst st'.
  rewrite (Insert_absent tableName cfg st v Henc Habsent). cbn [fst]. split.
  - intros cfg'. apply Insert_present. rewrite lookup_insert_eq. eauto.
  - unfold Delete. rewrite Delete_map, lookup_insert_eq.
    cbn [is_ErrKeyNotFound]. rewrite delete_insert_id by exact Habsent.
    reflexivity.
Qed.

(** X21. Over the map store, in the store that [Delete] returns,
    whether it found the table or not: the table is absent; [Get],
    [Delete] and [Replace] return [ErrTableNotFound]; and [Insert] of a
    configuration that encodes without error succeeds. *)
Theorem Delete_then (tableName : string) st :
  let st' := fst (Delete tableName st) in
  st' !! tableName = None /\
  Get tableName st' = (None, Some ErrTableNotFound) /\
  Delete tableName st' = (st', Some ErrTableNotFound) /\
  (forall p, Replace tableName p st' = Some (st', Some ErrTableNotFound)) /\
  (forall cfg, snd (EncodeDocument (configFields cfg)) = None ->
               snd (Insert tableName cfg st') = None).
Proof.
  intros st'.
  assert (Habsent : st' !! tableName = None).
  { subst st'. unfold Delete. rewrite Delete_map.
    destruct (st !! tableName) eqn:Hl; cbn [is_ErrKeyNotFound fst];
      [apply lookup_delete_eq | exact Hl]. }
  split; [exact Habsent|]. repeat split.
  - unfold Get. rewrite Get_map, Habsent. reflexivity.
  - unfold Delete. rewrite Delete_map, Habsent. reflexivity.
  - intros p. unfold Replace. rewrite Get_map, Habsent. reflexivity.
  - intros cfg Henc.
    destruct (EncodeDocument (configFields cfg)) as [v e] eqn:He.
    cbn [snd] in Henc. subst e.
    rewrite (Insert_absent tableName cfg st' v He Habsent). reflexivity.
Qed.

(** X22. Over the map store, for a table that is present and a
    configuration whose encoding round-trips: [Replace] returns nil,
    [Get] on the resulting store returns the new configuration, and
    [Insert] under that name still returns
    [ErrTableAlreadyExists]. *)
Theorem Replace_Get_round_trip (tableName : string) cfg st (v : bytes) :
  wf_TableConfig cfg -> round_trips cfg v -> is_Some (st !! tableName) ->
  exists st', Replace tableName (Some cfg) st = Some (st', None) /\
              Get tableName st' = (Some cfg, None) /\
              (forall cfg', Insert tableName cfg' st'
                            = (st', Some ErrTableAlreadyExists)).
Proof.
  intros Hwf Hrt [old Hold]. exists (<[tableName := v]> st).
  split; [|split].
  - unfold Replace. rewrite Get_map, Hold. cbn [is_ErrKeyNotFound].
    rewrite (proj1 Hrt). reflexivity.
  - apply Get_after_Put; assumption.
  - intros cfg'. apply Insert_present. rewrite lookup_insert_eq. eauto.
Qed.

End CatalogOverMapStore.

Lemma catalog_frame_witness :
  database.Get (api := document.reference.api) "users"
    (fst (database.Insert (api := document.reference.api) "orders"
            samples.users samples.catalog))
  = database.Get (api := document.reference.api) "users" samples.catalog /\
  (forall p r,
     database.Replace (api := document.reference.api) "orders" p
       samples.catalog = Some r ->
     database.Get (api := document.reference.api) "users" (fst r)
     = database.Get (api := document.reference.api) "users" samples.catalog) /\
  database.Get (api := document.reference.api) "users"
    (fst (database.Delete "orders" samples.catalog))
  = database.Get (api := document.reference.api) "users" samples.catalog.
Proof.
  apply (catalog_frame (api := document.reference.api) "orders" "users"
           samples.users samples.catalog).
  discriminate.
Defined.

Lemma Insert_then_witness :
  (forall cfg',
     database.Insert (api := document.reference.api) "users" cfg'
       (fst (database.Insert (api := document.reference.api) "users"
               samples.users ∅))
     = (fst (database.Insert (api := document.reference.api) "users"
               samples.users ∅), Some ErrTableAlreadyExists)) /\
  database.Delete "users"
    (fst (database.Insert (api := document.reference.api) "users"
            samples.users ∅))
  = (∅, None).
Proof.
  apply (Insert_then (api := document.reference.api) "users" samples.users ∅
           samples.users_bytes);
    reflexivity.
Defined.

Lemma Replace_Get_round_trip_witness :
  exists st',
    database.Replace (api := document.reference.api) "users"
      (Some samples.users) samples.catalog = Some (st', None) /\
    database.Get (api := document.reference.api) "users" st'
    = (Some samples.users, None) /\
    (forall cfg',
       database.Insert (api := document.reference.api) "users" cfg' st'
       = (st', Some ErrTableAlreadyExists)).
Proof.
  apply (Replace_Get_round_trip (api := document.reference.api) "users"
           samples.users samples.catalog samples.users_bytes).
  - unfold database.wf_TableConfig. simpl. lia.
  - exact samples_users_round_trips.
  - unfold samples.catalog. rewrite lookup_singleton_eq. eauto.
Defined.

(** ** The index catalog *)

Section IndexFacts.

Import indexStore.
Context {api : API}.
Implicit Types (st : gmap string bytes) (cfg : indexOptions).

(** X23. Over the map store, the index catalog goes by the key that
    [buildIndexName] builds: [Insert] of options whose index name builds
    a key that is present returns [ErrIndexAlreadyExists] and leaves the
    store as it is; [Get] and [Delete] of an index name whose key is
    absent return [ErrIndexNotFound], and [Delete] leaves the store as
    it is. *)
Theorem indexStore_presence cfg (indexName : string) st :
  (is_Some (st !! buildIndexName (IndexName cfg)) ->
     Insert cfg st = (st, Some ErrIndexAlreadyExists)) /\
  (st !! buildIndexName indexName = None ->
     Get indexName st = (None, Some ErrIndexNotFound) /\
     Delete indexName st = (st, Some ErrIndexNotFound)).
Proof.
  split.
  - intros [old Hold]. unfold Insert.
    rewrite Get_map, Hold. reflexivity.
  - intros Habsent. unfold Get, Delete.
    rewrite Get_map, Delete_map, Habsent. split; reflexivity.
Qed.

(** X24. Over the map store, for index options that encode without
    error to bytes from which [ScanDocument] reads them back, and whose
    key is absent: [Insert] returns nil; on the resulting store [Get] of
    the options' index name returns the options, a second [Insert]
    returns [ErrIndexAlreadyExists], and [Delete] of the index name
    returns nil and gives back the store as it was. *)
Theorem indexStore_Insert_then cfg st (v : bytes) :
  EncodeDocument cfg = (v, None) ->
  ScanDocument v zero = (cfg, None) ->
  st !! buildIndexName (IndexName cfg) = None ->
  exists st', Insert cfg st = (st', None) /\
              Get (IndexName cfg) st' = (Some cfg, None) /\
              Insert cfg st' = (st', Some ErrIndexAlreadyExists) /\
              Delete (IndexName cfg) st' = (st, None).
Proof.
  intros Henc Hscan Habsent.
  exists (<[buildIndexName (IndexName cfg) := v]> st). repeat split.
  - unfold Insert. rewrite Get_map, Habsent, Henc. reflexivity.
  - unfold Get. rewrite Get_map, lookup_insert_eq.
    cbn [is_ErrKeyNotFound]. rewrite Hscan. reflexivity.
  - unfold Insert. rewrite Get_map, lookup_insert_eq.
    reflexivity.
  - unfold Delete. rewrite Delete_map, lookup_insert_eq.
    cbn [is_ErrKeyNotFound]. rewrite delete_insert_id by exact Habsent.
    reflexivity.
Qed.

End IndexFacts.

Lemma indexStore_Insert_then_witness :
  exists st',
    indexStore.Insert (api := samples.indexes) samples.idx_age ∅
    = (st', None) /\
    indexStore.Get (api := samples.indexes) "age" st'
    = (Some samples.idx_age, None) /\
    indexStore.Insert (api := samples.indexes) samples.idx_age st'
    = (st', Some (ErrOther "index already exists")) /\
    indexStore.Delete (api := samples.indexes) "age" st' = (∅, None).
Proof.
  apply (indexStore_Insert_then (api := samples.indexes) samples.idx_age ∅
           "uage");
    reflexivity.
Defined.

(** ** The context of the code generator *)

Section ReadPackageFacts.

Import generator.
Context {File recordContext : Type}.
Variable Name : File -> string.
Implicit Types (g : genContext recordContext) (srcs : list File).

Lemma readPackage_loop_same srcs (pkg : string) :
  Forall (fun src => Name src = pkg) srcs ->
  readPackage_loop Name srcs pkg = (pkg, None).
Proof.
  induction srcs as [|src srcs IH]; intros Hall; [reflexivity|].
  apply Forall_cons in Hall. destruct Hall as [Hsrc Hrest].
  cbn [readPackage_loop].
  rewrite Hsrc, String.eqb_refl. cbn [negb]. rewrite andb_false_r.
  apply IH, Hrest.
Qed.

Lemma readPackage_loop_differ srcs (pkg : string) :
  pkg <> EmptyString ->
  Forall (fun src => Name src <> EmptyString) srcs ->
  snd (readPackage_loop Name srcs pkg) = None ->
  Forall (fun src => Name src = pkg) srcs.
Proof.
  revert pkg. induction srcs as [|src srcs IH]; intros pkg Hpkg Hall Hok;
    [constructor|].
  apply Forall_cons in Hall. destruct Hall as [Hsrc Hrest].
  cbn [readPackage_loop] in Hok.
  destruct (String.eqb_spec pkg EmptyString) as [|_]; [contradiction|].
  destruct (String.eqb_spec pkg (Name src)) as [Heq|Hne];
    cbn [negb andb] in Hok; [|discriminate].
  constructor; [symmetry; exact Heq|].
  rewrite <- Heq in Hok. apply IH; assumption.
Qed.

(** X25. For source files that all have a non-empty package name:
    [readPackage] returns nil if and only if all files have the same
    package name; it then sets [Pkg] to that name, and when it returns
    an error it leaves the context as it was. *)
Theorem readPackage_same_package g srcs :
  Forall (fun src => Name src <> EmptyString) srcs ->
  (snd (readPackage Name g srcs) = None <->
     forall x y, x ∈ srcs -> y ∈ srcs -> Name x = Name y) /\
  (snd (readPackage Name g srcs) = None ->
     forall x, x ∈ srcs -> Pkg (fst (readPackage Name g srcs)) = Name x) /\
  (snd (readPackage Name g srcs) <> None ->
     fst (readPackage Name g srcs) = g).
Proof.
  intros Hall. unfold readPackage.
  destruct srcs as [|src srcs].
  { cbn. repeat split; try tauto; intros;
      match goal with H : _ ∈ [] |- _ => apply elem_of_nil in H; tauto end. }
  apply Forall_cons in Hall. destruct Hall as [Hsrc Hrest].
  cbn [readPackage_loop]. cbn [String.eqb negb andb].
  destruct (readPackage_loop Name srcs (Name src)) as [pkg [e|]] eqn:Hloop;
    cbn [fst snd Pkg].
  - repeat split; try discriminate; try (intros []; reflexivity).
    intros Hsame. exfalso.
    assert (Hok : readPackage_loop Name srcs (Name src) = (Name src, None)).
    { apply readPackage_loop_same, Forall_forall. intros x Hx.
      apply Hsame; [right; exact Hx | left]. }
    congruence.
  - assert (Hsame : Forall (fun x => Name x = Name src) srcs).
    { apply readPackage_loop_differ; [exact Hsrc | exact Hrest |].
      rewrite Hloop. reflexivity. }
    assert (Hpkg : pkg = Name src).
    { rewrite (readPackage_loop_same srcs (Name src) Hsame) in Hloop.
      congruence. }
    rewrite Forall_forall in Hsame.
    assert (Hin : forall x, x ∈ src :: srcs -> Name x = Name src).
    { intros x Hx. apply elem_of_cons in Hx. destruct Hx as [->|Hx];
        [reflexivity | apply Hsame, Hx]. }
    repeat split.
    + intros _ x y Hx Hy. rewrite (Hin x Hx), (Hin y Hy). reflexivity.
    + intros _ x Hx. rewrite (Hin x Hx). exact Hpkg.
    + intros H. contradiction.
Qed.

End ReadPackageFacts.

Section GeneratorFacts.

Import generator.
Context {Reader File recordContext : Type}.
Variable lookupRecord :
  recordContext -> File -> string -> recordContext * bool * error.
Variable zero : recordContext.
Variable range_keys : gmap string Z -> list string.
Implicit Types (g : genContext recordContext) (srcs : list File)
  (cfg : Config Reader).

Lemma readNames_length srcs (names : list string) :
  forall (i : nat) (recs : list recordContext),
    length (fst (readNames lookupRecord zero srcs names i recs))
    = length recs.
Proof.
  induction names as [|name names IH]; intros i recs; [reflexivity|].
  cbn [readNames].
  destruct (lookupSources lookupRecord srcs name (default zero (recs !! i)))
    as [rc [e|]]; cbn [fst].
  - apply length_insert.
  - rewrite IH. apply length_insert.
Qed.


Lemma append_each (l acc : list string) :
  fold_left (fun imports k => imports ++ [k]) l acc = acc ++ l.
Proof.
  revert acc. induction l as [|k l IH]; intros acc; cbn [fold_left].
  - rewrite app_nil_r. reflexivity.
  - rewrite IH, <- app_assoc. reflexivity.
Qed.

Lemma increment_key (k k' : string) (m : gmap string Z) :
  is_Some (increment k m !! k') <-> k = k' \/ is_Some (m !! k').
Proof.
  unfold increment. destruct (decide (k = k')) as [->|Hne].
  - rewrite lookup_insert_eq. split; eauto.
  - rewrite lookup_insert_ne by exact Hne. split; [eauto|].
    intros [?|?]; [contradiction|assumption].
Qed.

Lemma keys_of_map (m : gmap string Z) (k : string) :
  visits_each_key_once range_keys ->
  k ∈ range_keys m <-> is_Some (m !! k).
Proof.
  intros Hperm. rewrite (Hperm m), list_elem_of_fmap. split.
  - intros [[k' v] [-> Hin]]. apply elem_of_map_to_list in Hin. eauto.
  - intros [v Hv]. exists (k, v). split; [reflexivity|].
    apply elem_of_map_to_list, Hv.
Qed.

Lemma selectImports_member g (k : string) :
  visits_each_key_once range_keys ->
  k ∈ Imports (selectImports range_keys g) <->
    (Records g <> [] /\
     k ∈ ["errors"; "github.com/asdine/genji";
          "github.com/asdine/genji/field"; "github.com/asdine/genji/query";
          "github.com/asdine/genji/record";
          "github.com/asdine/genji/table"]%string) \/
    (Results g <> [] /\
     k ∈ ["github.com/asdine/genji/record";
          "github.com/asdine/genji/table"]%string).
Proof.
  intros Hperm. unfold selectImports. cbn [Imports].
  rewrite append_each. cbn [app]. rewrite (keys_of_map _ k Hperm).
  destruct (Records g) as [|r rs], (Results g) as [|r' rs'];
    cbn [length Nat.ltb Nat.leb];
    rewrite ?increment_key, ?lookup_empty, ?elem_of_cons, ?elem_of_nil;
    split; intros H;
    repeat match goal with
      | H : _ \/ _ |- _ => destruct H
      | H : _ /\ _ |- _ => destruct H
      | H : is_Some None |- _ => destruct H; discriminate
      | H : False |- _ => destruct H
      | H : [] <> [] |- _ => contradiction
      end; subst; auto 12.
Qed.

(** X27. Where a [range] over a map visits each key once:
    [selectImports] sets [Imports] to a list without duplicates that
    holds exactly the six packages of the records when there is a
    record, the two packages of the results when there is a result, and
    nothing else; the packages that both need appear once. [Pkg],
    [Records] and [Results] are left as they are. *)
Theorem selectImports_imports g :
  visits_each_key_once range_keys ->
  let g' := selectImports range_keys g in
  NoDup (Imports g') /\
  (forall k, k ∈ Imports g' <->
     (Records g <> [] /\
      k ∈ ["errors"; "github.com/asdine/genji";
           "github.com/asdine/genji/field"; "github.com/asdine/genji/query";
           "github.com/asdine/genji/record";
           "github.com/asdine/genji/table"]%string) \/
     (Results g <> [] /\
      k ∈ ["github.com/asdine/genji/record";
           "github.com/asdine/genji/table"]%string)) /\
  Pkg g' = Pkg g /\ Records g' = Records g /\ Results g' = Results g.
Proof.
  intros Hperm g'. subst g'. split; [|split; [|auto]].
  - unfold selectImports. cbn [Imports]. rewrite append_each. cbn [app].
    rewrite (Hperm _). apply NoDup_fst_map_to_list.
  - intros k. apply selectImports_member, Hperm.
Qed.

Lemma readTargets_success g srcs cfg :
  snd (readTargets lookupRecord zero g srcs cfg) = None ->
  length (Records (fst (readTargets lookupRecord zero g srcs cfg)))
    = length (cfg_Records cfg) /\
  length (Results (fst (readTargets lookupRecord zero g srcs cfg)))
    = length (cfg_Results cfg).
Proof.
  unfold readTargets.
  pose proof (readNames_length srcs (cfg_Records cfg) 0
                (replicate (length (cfg_Records cfg)) zero)) as Hrec.
  destruct (readNames lookupRecord zero srcs (cfg_Records cfg) 0 _)
    as [records [e|]]; cbn [fst snd Records Results] in *;
    [discriminate|].
  pose proof (readNames_length srcs (cfg_Results cfg) 0
                (replicate (length (cfg_Results cfg)) zero)) as Hres.
  destruct (readNames lookupRecord zero srcs (cfg_Results cfg) 0 _)
    as [results e]; cbn [fst snd Records Results] in *.
  rewrite length_replicate in Hrec, Hres. intros _. split; assumption.
Qed.

(** X28. Where a [range] over a map visits each key once: after a
    [readTargets] that returned nil, [selectImports] selects no import
    if and only if the configuration names no record and no result. *)
Theorem imports_follow_config g srcs cfg :
  visits_each_key_once range_keys ->
  snd (readTargets lookupRecord zero g srcs cfg) = None ->
  (Imports (selectImports range_keys
              (fst (readTargets lookupRecord zero g srcs cfg))) = [] <->
   cfg_Records cfg = [] /\ cfg_Results cfg = []).
Proof.
  intros Hperm Hok.
  destruct (readTargets_success g srcs cfg Hok) as [Hrec Hres].
  set (g' := fst (readTargets lookupRecord zero g srcs cfg)) in *.
  pose proof (fun k => selectImports_member g' k Hperm) as Hin.
  split.
  - intros Hnil. rewrite Hnil in Hin.
    split; apply length_zero_iff_nil.
    + rewrite <- Hrec. apply length_zero_iff_nil.
      destruct (Records g') as [|r rs]; [reflexivity|]. exfalso.
      apply (elem_of_nil ("errors"%string : string)), Hin. left.
      split; [discriminate | left].
    + rewrite <- Hres. apply length_zero_iff_nil.
      destruct (Results g') as [|r rs]; [reflexivity|]. exfalso.
      apply (elem_of_nil ("github.com/asdine/genji/table"%string : string)),
        Hin. right.
      split; [discriminate | right; left].
  - intros [Hr Hs]. rewrite Hr in Hrec. rewrite Hs in Hres.
    apply length_zero_iff_nil in Hrec, Hres.
    destruct (Imports (selectImports range_keys g')) as [|k ks] eqn:Himp;
      [reflexivity|].
    exfalso. assert (Hk : k ∈ k :: ks) by left.
    apply Hin in Hk. rewrite Hrec, Hres in Hk.
    destruct Hk as [[H _]|[H _]]; apply H; reflexivity.
Qed.

End GeneratorFacts.

Lemma readPackage_same_package_witness :
  (snd (generator.readPackage id samples.old_context ["main"; "main"]%string)
   = None <->
   forall x y : string,
     x ∈ ["main"; "main"]%string -> y ∈ ["main"; "main"]%string ->
     id x = id y) /\
  (snd (generator.readPackage id samples.old_context ["main"; "main"]%string)
   = None ->
   forall x : string,
     x ∈ ["main"; "main"]%string ->
     generator.Pkg
       (fst (generator.readPackage id samples.old_context
               ["main"; "main"]%string)) = id x) /\
  (snd (generator.readPackage id samples.old_context ["main"; "main"]%string)
   <> None ->
   fst (generator.readPackage id samples.old_context ["main"; "main"]%string)
   = samples.old_context).
Proof.
  apply (readPackage_same_package id samples.old_context
           ["main"; "main"]%string).
  repeat constructor; discriminate.
Defined.

(** A context with a record and a result: both lists of packages are
    selected, and those that both need are selected once. *)
Lemma selectImports_imports_witness :
  NoDup (generator.Imports
           (generator.selectImports samples.key_order samples.one_of_each)) /\
  (forall k,
     k ∈ generator.Imports
           (generator.selectImports samples.key_order samples.one_of_each) <->
     (generator.Records samples.one_of_each <> [] /\
      k ∈ ["errors"; "github.com/asdine/genji";
           "github.com/asdine/genji/field"; "github.com/asdine/genji/query";
           "github.com/asdine/genji/record";
           "github.com/asdine/genji/table"]%string) \/
     (generator.Results samples.one_of_each <> [] /\
      k ∈ ["github.com/asdine/genji/record";
           "github.com/asdine/genji/table"]%string)) /\
  generator.Pkg
    (generator.selectImports samples.key_order samples.one_of_each)
  = generator.Pkg samples.one_of_each /\
  generator.Records
    (generator.selectImports samples.key_order samples.one_of_each)
  = generator.Records samples.one_of_each /\
  generator.Results
    (generator.selectImports samples.key_order samples.one_of_each)
  = generator.Results samples.one_of_each.
Proof.
  apply (selectImports_imports samples.key_order samples.one_of_each).
  intros m. reflexivity.
Defined.

Lemma imports_follow_config_witness :
  generator.Imports
    (generator.selectImports samples.key_order
       (fst (generator.readTargets samples.find_by_prefix EmptyString
               samples.old_context ["main"%string] samples.targets))) = [] <->
  generator.cfg_Records samples.targets = [] /\
  generator.cfg_Results samples.targets = [].
Proof.
  apply (imports_follow_config samples.find_by_prefix EmptyString
           samples.key_order samples.old_context ["main"%string]
           samples.targets).
  - intros m. reflexivity.
  - reflexivity.
Defined.


(** ** [Append] on the arrays that streams share *)

Section SharedFacts.

Context {Document : Type}.
Variable grow : nat -> nat.
Implicit Types (h : shared.Heap Document) (v i : shared.Value Document)
  (s : shared.Stream Document) (sl : shared.Slice) (k : nat).

Lemma read_multi k h sl :
  shared.read (S k) h (shared.multiValue sl) =
    match h !! shared.array sl with
    | Some cells =>
        if ((shared.len sl <=? shared.cap sl)
            && (shared.cap sl <=? length cells))%nat
        then
          match mapM (fun c => c ≫= shared.read k h)
                  (take (shared.len sl) cells) with
          | Some iterators => Some (multiIterator iterators)
          | None => None
          end
        else None
    | None => None
    end.
Proof.
  cbn [shared.read]. destruct (h !! shared.array sl) as [cells|];
    [|reflexivity].
  cbn. destruct (_ && _); [|reflexivity].
  destruct (mapM _ _); reflexivity.
Qed.

Lemma read_Stream_value k h i o :
  shared.read (S k) h (shared.StreamValue (Some i) o) =
    match shared.read k h i with
    | Some i' => Some (StreamIterator (Some i') o)
    | None => None
    end.
Proof. cbn [shared.read]. destruct (shared.read k h i); reflexivity. Qed.

(** A read that succeeds does so with every larger fuel and in every
    heap that holds the same arrays at the same addresses. *)
Lemma read_frame k :
  forall k' h h' v p,
    (k <= k')%nat ->
    (forall a cells, h !! a = Some cells -> h' !! a = Some cells) ->
    shared.read k h v = Some p -> shared.read k' h' v = Some p.
Proof.
  induction k as [|k IH]; intros k' h h' v p Hk Hh Hr; [discriminate|].
  destruct k' as [|k']; [lia|].
  destruct v as [rr|[i|] o|sl].
  - exact Hr.
  - rewrite read_Stream_value in *.
    destruct (shared.read k h i) as [i'|] eqn:Hi; [|discriminate].
    rewrite (IH k' h h' i i') by (assumption || lia). exact Hr.
  - exact Hr.
  - rewrite read_multi in *.
    destruct (h !! shared.array sl) as [cells|] eqn:Hc; [|discriminate].
    rewrite (Hh _ _ Hc).
    destruct (_ && _); [|discriminate].
    destruct (mapM _ _) as [l|] eqn:Hl; [|discriminate].
    apply mapM_Some in Hl.
    assert (Hl' : mapM (fun c => c ≫= shared.read k' h')
                    (take (shared.len sl) cells) = Some l).
    { apply mapM_Some. eapply Forall2_impl; [exact Hl|].
      intros [v|] q; cbn; [|discriminate].
      apply IH; [lia | exact Hh]. }
    rewrite Hl'. exact Hr.
Qed.

(** What [append] does to the cells: the new slice holds the cells of
    the old one and then the new value. *)
Lemma append_cells sl v h (arr : list (option (shared.Value Document))) :
  h !! shared.array sl = Some arr ->
  (shared.len sl <= shared.cap sl <= length arr)%nat ->
  exists arr',
    snd (shared.append grow sl v h) !! shared.array
      (fst (shared.append grow sl v h)) = Some arr' /\
    shared.len (fst (shared.append grow sl v h)) = S (shared.len sl) /\
    (S (shared.len sl) <= shared.cap (fst (shared.append grow sl v h))
     <= length arr')%nat /\
    take (S (shared.len sl)) arr' = take (shared.len sl) arr ++ [Some v] /\
    (shared.array (fst (shared.append grow sl v h)) = shared.array sl
     \/ (length h <= shared.array (fst (shared.append grow sl v h)))%nat) /\
    (forall a cells,
       a <> shared.array (fst (shared.append grow sl v h)) ->
       h !! a = Some cells ->
       snd (shared.append grow sl v h) !! a = Some cells) /\
    (length h <= length (snd (shared.append grow sl v h)))%nat.
Proof.
  intros Harr Hlen. unfold shared.append, shared.Heap in *.
  destruct (Nat.ltb_spec (shared.len sl) (shared.cap sl)) as [Hlt|Hge];
    cbn [fst snd shared.array shared.len shared.cap].
  - exists (<[shared.len sl := Some v]> arr).
    rewrite list_lookup_alter_eq, Harr, length_insert. cbn.
    repeat split; try lia.
    + rewrite (take_S_r _ _ (Some v))
        by (apply list_lookup_insert_eq; lia).
      rewrite take_insert_ge by lia. reflexivity.
    + intros a cells Ha Hc. rewrite list_lookup_alter_ne by congruence.
      exact Hc.
    + rewrite length_alter. lia.
  - rewrite Harr. cbn [default].
    set (n := shared.len sl) in *.
    set (c := Nat.max (S n) (grow (shared.cap sl))).
    exists (take n arr ++ Some v :: replicate (c - S n) None).
    assert (Hn : length (take n arr) = n) by (rewrite length_take; lia).
    rewrite lookup_app_r, Nat.sub_diag by lia. cbn.
    rewrite length_app, Hn. cbn. rewrite length_replicate.
    repeat split; try lia.
    + change (Some v :: replicate (c - S n) None)
        with ([Some v] ++ replicate (c - S n) None).
      rewrite app_assoc. apply take_app_length'.
      rewrite length_app, Hn. cbn. lia.
    + intros a cells _ Hc. apply lookup_app_l_Some, Hc.
    + rewrite length_app. lia.
Qed.


Lemma read_Some_multi k h sl p :
  shared.read k h (shared.multiValue sl) = Some p ->
  exists k0 cells l,
    k = S k0 /\ h !! shared.array sl = Some cells /\
    (shared.len sl <= shared.cap sl <= length cells)%nat /\
    Forall2 (fun c q => c ≫= shared.read k0 h = Some q)
      (take (shared.len sl) cells) l /\
    p = multiIterator l.
Proof.
  destruct k as [|k0]; [discriminate|]. rewrite read_multi.
  destruct (h !! shared.array sl) as [cells|]; [|discriminate].
  destruct (_ && _) eqn:Hwf; [|discriminate].
  destruct (mapM _ _) as [l|] eqn:Hl; [|discriminate].
  intros [= <-]. exists k0, cells, l. apply andb_true_iff in Hwf.
  destruct Hwf as [H1 H2]. apply Nat.leb_le in H1, H2.
  apply mapM_Some in Hl. repeat split; auto.
Qed.

Lemma read_multi_Some k h sl cells l :
  h !! shared.array sl = Some cells ->
  (shared.len sl <= shared.cap sl <= length cells)%nat ->
  Forall2 (fun c q => c ≫= shared.read k h = Some q)
    (take (shared.len sl) cells) l ->
  shared.read (S k) h (shared.multiValue sl) = Some (multiIterator l).
Proof.
  intros Hc [H1 H2] Hl. rewrite read_multi, Hc.
  apply Nat.leb_le in H1, H2. rewrite H1, H2. cbn [andb].
  match goal with
  | |- context [mapM ?f ?cs] =>
      assert (Hm : mapM f cs = Some l) by (apply mapM_Some; exact Hl);
      rewrite Hm
  end.
  reflexivity.
Qed.

Lemma read_more_fuel k k' h v p :
  (k <= k')%nat -> shared.read k h v = Some p ->
  shared.read k' h v = Some p.
Proof. intros Hk. apply read_frame; auto. Qed.

(** A value that is no [multiIterator] does not read as one. *)
Lemma read_not_multi k h v p :
  (forall sl, v <> shared.multiValue sl) ->
  shared.read k h v = Some p ->
  forall l, p <> multiIterator l.
Proof.
  intros Hv Hr l ->. destruct k as [|k]; [discriminate|].
  destruct v as [rr|[i|] o|sl].
  - discriminate.
  - rewrite read_Stream_value in Hr.
    destruct (shared.read k h i); discriminate.
  - discriminate.
  - exact (Hv sl eq_refl).
Qed.

Lemma Append_not_multi (ps : Stream Document) (pi : Iterator Document) :
  (forall p, it ps = Some p -> forall l, p <> multiIterator l) ->
  Append ps pi
  = {| it := Some (multiIterator [Stream_as_Iterator ps; pi]);
       op := op ps |}.
Proof.
  intros Hps. unfold Append. destruct (it ps) as [[rr|i o|l]|] eqn:Hit;
    try reflexivity.
  exfalso. exact (Hps _ eq_refl l eq_refl).
Qed.

Lemma Append_reads_after s i h k
    (before ps : shared.Contents Document) (pi : Iterator Document) :
  shared.read_Stream k h s = Some before ->
  shared.read_Stream k (snd (shared.Append grow s i h)) s = Some ps ->
  shared.read k (snd (shared.Append grow s i h)) i = Some pi ->
  shared.read_Stream (S (S k)) (snd (shared.Append grow s i h))
    (fst (shared.Append grow s i h))
  = Some (Append ps pi).
Proof.
  intros Hbefore.
  assert (Hfresh :
            (forall mr, shared.it s <> Some (shared.multiValue mr)) ->
            shared.read_Stream k
              (h ++ [[Some (shared.Stream_as_Value s); Some i]]) s
              = Some ps ->
            shared.read k
              (h ++ [[Some (shared.Stream_as_Value s); Some i]]) i
              = Some pi ->
            shared.read_Stream (S (S k))
              (h ++ [[Some (shared.Stream_as_Value s); Some i]])
              {| shared.it :=
                   Some (shared.multiValue
                           {| shared.array := length h; shared.len := 2;
                              shared.cap := 2 |});
                 shared.op := shared.op s |}
            = Some (Append ps pi)).
  { intros Hs Hps Hpi.
    set (h' := h ++ [[Some (shared.Stream_as_Value s); Some i]]) in *.
    assert (Hsv : shared.read (S k) h' (shared.Stream_as_Value s)
                  = Some (Stream_as_Iterator ps) /\
                  (forall p, it ps = Some p ->
                             forall l, p <> multiIterator l)).
    { unfold shared.read_Stream in Hps. unfold shared.Stream_as_Value.
      destruct (shared.it s) as [v|] eqn:Hit.
      - rewrite read_Stream_value.
        destruct (shared.read k h' v) as [p|] eqn:Hp; [|discriminate].
        injection Hps as <-. split; [reflexivity|].
        cbn. intros p' [= <-].
        apply (read_not_multi k h' v p); [|exact Hp].
        intros sl ->. exact (Hs sl eq_refl).
      - injection Hps as <-. split; [reflexivity|]. cbn. discriminate. }
    destruct Hsv as [Hsv Hnot].
    unfold shared.read_Stream. cbn [shared.it shared.op].
    rewrite (read_multi_Some (S k) h' _
               [Some (shared.Stream_as_Value s); Some i]
               [Stream_as_Iterator ps; pi]).
    - cbn. rewrite (Append_not_multi ps pi Hnot).
      unfold shared.mkContents. f_equal. f_equal.
      unfold shared.read_Stream in Hps.
      destruct (shared.it s); [|injection Hps as <-; reflexivity].
      destruct (shared.read k h' v); [|discriminate].
      injection Hps as <-. reflexivity.
    - subst h'. unfold shared.Heap. cbn [shared.array].
      rewrite lookup_app_r, Nat.sub_diag by lia. reflexivity.
    - cbn. lia.
    - cbn [take shared.len]. repeat constructor; cbn [mbind option_bind].
      + exact Hsv.
      + apply (read_more_fuel k); [lia | exact Hpi]. }
  unfold shared.Append.
  destruct (shared.it s) as [[rr|its' o'|mr]|] eqn:Hit;
    cbn [fst snd]; try (apply Hfresh; intros mr'; discriminate).
  unfold shared.read_Stream in *. rewrite Hit in *.
  destruct (shared.read k h (shared.multiValue mr)) as [b|] eqn:Hb;
    [|discriminate].
  apply read_Some_multi in Hb.
  destruct Hb as (k0 & arr & l0 & -> & Harr & Hwf & _ & _).
  destruct (append_cells mr i h arr Harr Hwf)
    as (arr' & Harr' & Hlen' & Hwf' & Htake & _ & Hother & _).
  destruct (shared.append grow mr i h) as [sl' h'] eqn:Happ.
  cbn [fst snd shared.it shared.op] in *.
  intros Hps Hpi.
  destruct (shared.read (S k0) h' (shared.multiValue mr)) as [q|] eqn:Hq;
    [|discriminate].
  injection Hps as <-.
  apply read_Some_multi in Hq.
  destruct Hq as (k1 & cells & l & [= <-] & Hcells & Hwfc & Hl & ->).
  assert (Hsame : take (shared.len mr) cells = take (shared.len mr) arr).
  { destruct (decide (shared.array mr = shared.array sl')) as [Heq|Hne].
    - rewrite Heq in Hcells. unfold shared.Heap in *.
      rewrite Harr' in Hcells. injection Hcells as <-.
      replace (take (shared.len mr) arr')
        with (take (shared.len mr) (take (S (shared.len mr)) arr'))
        by (rewrite take_take; f_equal; lia).
      rewrite Htake, take_app_length'; [reflexivity|].
      rewrite length_take. lia.
    - rewrite (Hother _ _ Hne Harr) in Hcells. injection Hcells as <-.
      reflexivity. }
  rewrite (read_multi_Some (S (S k0)) h' sl' arr' (l ++ [pi])).
  - reflexivity.
  - exact Harr'.
  - rewrite Hlen'. exact Hwf'.
  - rewrite Hlen', Htake, <- Hsame. apply Forall2_app.
    + eapply Forall2_impl; [exact Hl|].
      intros [v|] q; cbn [mbind option_bind]; [|discriminate].
      apply (read_more_fuel k0). lia.
    + repeat constructor. cbn [mbind option_bind].
      apply (read_more_fuel (S k0)); [lia | exact Hpi].
Qed.


(** The state of a chain of [Append]s that started on a stream of its
    own, over the heap [h0]: the stream holds a slice of an array
    allocated since, whose cells are the values [vs]; the arrays of
    [h0] are as they were. *)
Lemma Append_keeps (h0 : shared.Heap Document)
    (vs : list (shared.Value Document)) s i h :
  (exists sl arr,
     shared.it s = Some (shared.multiValue sl) /\ shared.op s = None /\
     (length h0 <= shared.array sl)%nat /\ (length h0 <= length h)%nat /\
     h !! shared.array sl = Some arr /\
     (shared.len sl <= shared.cap sl <= length arr)%nat /\
     take (shared.len sl) arr = Some <$> vs /\
     (forall a cells, h0 !! a = Some cells -> h !! a = Some cells)) ->
  exists sl arr,
    shared.it (fst (shared.Append grow s i h))
      = Some (shared.multiValue sl) /\
    shared.op (fst (shared.Append grow s i h)) = None /\
    (length h0 <= shared.array sl)%nat /\
    (length h0 <= length (snd (shared.Append grow s i h)))%nat /\
    snd (shared.Append grow s i h) !! shared.array sl = Some arr /\
    (shared.len sl <= shared.cap sl <= length arr)%nat /\
    take (shared.len sl) arr = Some <$> (vs ++ [i]) /\
    (forall a cells,
       h0 !! a = Some cells ->
       snd (shared.Append grow s i h) !! a = Some cells).
Proof.
  intros (sl & arr & Hit & Hop & Hnew & Hh & Harr & Hwf & Hvs & Hold).
  unfold shared.Append. rewrite Hit.
  destruct (append_cells sl i h arr Harr Hwf)
    as (arr' & Harr' & Hlen' & Hwf' & Htake & Hwhere & Hother & Hgrow).
  destruct (shared.append grow sl i h) as [sl' h'].
  cbn [fst snd shared.it shared.op] in *.
  exists sl', arr'.
  unfold shared.Heap in *.
  assert (Hnew' : (length h0 <= shared.array sl')%nat).
  { destruct Hwhere as [Hw | Hw]; [rewrite Hw; exact Hnew|].
    etransitivity; eassumption. }
  repeat split; try assumption; try lia.
  - rewrite Hlen', Htake, Hvs, fmap_app. reflexivity.
  - intros a cells Ha. apply Hother; [|apply Hold, Ha].
    apply lookup_lt_Some in Ha. lia.
Qed.

Lemma Append_all_cons s i (its : list (shared.Value Document)) h :
  shared.Append_all grow s (i :: its) h
  = shared.Append_all grow (fst (shared.Append grow s i h)) its
      (snd (shared.Append grow s i h)).
Proof.
  unfold shared.Append_all. cbn [fold_left fst snd].
  destruct (shared.Append grow s i h); reflexivity.
Qed.

Lemma Append_all_keeps (h0 : shared.Heap Document)
    (its : list (shared.Value Document)) :
  forall (vs : list (shared.Value Document)) s h,
    (exists sl arr,
       shared.it s = Some (shared.multiValue sl) /\ shared.op s = None /\
       (length h0 <= shared.array sl)%nat /\ (length h0 <= length h)%nat /\
       h !! shared.array sl = Some arr /\
       (shared.len sl <= shared.cap sl <= length arr)%nat /\
       take (shared.len sl) arr = Some <$> vs /\
       (forall a cells, h0 !! a = Some cells -> h !! a = Some cells)) ->
    exists sl arr,
      shared.it (fst (shared.Append_all grow s its h))
        = Some (shared.multiValue sl) /\
      shared.op (fst (shared.Append_all grow s its h)) = None /\
      snd (shared.Append_all grow s its h) !! shared.array sl = Some arr /\
      (shared.len sl <= shared.cap sl <= length arr)%nat /\
      take (shared.len sl) arr = Some <$> (vs ++ its) /\
      (forall a cells,
         h0 !! a = Some cells ->
         snd (shared.Append_all grow s its h) !! a = Some cells).
Proof.
  induction its as [|i its IH]; intros vs s h Hinv.
  - destruct Hinv as (sl & arr & Hit & Hop & _ & _ & Harr & Hwf & Hvs & Hold).
    exists sl, arr. rewrite app_nil_r. cbn. auto 10.
  - rewrite Append_all_cons.
    pose proof (Append_keeps h0 vs s i h Hinv) as Hstep.
    specialize (IH (vs ++ [i]) _ _ Hstep).
    rewrite <- app_assoc in IH. exact IH.
Qed.

Lemma Append_fresh (i0 i1 : shared.Value Document) h :
  (forall sl, i0 <> shared.multiValue sl) ->
  shared.Append grow (shared.NewStream i0) i1 h
  = ({| shared.it :=
          Some (shared.multiValue
                  {| shared.array := length h; shared.len := 2;
                     shared.cap := 2 |});
        shared.op := None |},
     h ++ [[Some (shared.StreamValue (Some i0) None); Some i1]]).
Proof.
  intros Hi0. unfold shared.Append, shared.NewStream.
  cbn [shared.it shared.op].
  destruct i0 as [rr|its o|sl]; try reflexivity.
  exfalso. exact (Hi0 sl eq_refl).
Qed.


Lemma Append_chain_heap (i0 : shared.Value Document)
    (its : list (shared.Value Document)) h k
    (p0 : Iterator Document) (ps : list (Iterator Document)) :
  (forall sl, i0 <> shared.multiValue sl) ->
  shared.read k h i0 = Some p0 ->
  Forall2 (fun i p => shared.read k h i = Some p) its ps ->
  shared.read_Stream (S (S k))
    (snd (shared.Append_all grow (shared.NewStream i0) its h))
    (fst (shared.Append_all grow (shared.NewStream i0) its h))
  = Some (fold_left Append ps (NewStream p0)) /\
  (forall j v p,
     shared.read j h v = Some p ->
     shared.read j
       (snd (shared.Append_all grow (shared.NewStream i0) its h)) v
     = Some p).
Proof.
  intros Hi0 Hp0 Hps.
  destruct Hps as [|i1 p1 its ps Hp1 Hps].
  { unfold shared.Append_all. cbn [fold_left fst snd]. split.
    - unfold shared.read_Stream. cbn [shared.it shared.op shared.NewStream].
      rewrite (read_more_fuel k (S (S k)) h i0 p0) by (lia || assumption).
      reflexivity.
    - auto. }
  rewrite Append_all_cons, (Append_fresh i0 i1 h Hi0). cbn [fst snd].
  set (sv := shared.StreamValue (Some i0) None).
  set (h1 := h ++ [[Some sv; Some i1]]).
  destruct (Append_all_keeps h its [sv; i1]
              {| shared.it :=
                   Some (shared.multiValue
                           {| shared.array := length h; shared.len := 2;
                              shared.cap := 2 |});
                 shared.op := None |} h1)
    as (sl & arr & Hit & Hop & Harr & Hwf & Hvs & Hold).
  { exists {| shared.array := length h; shared.len := 2; shared.cap := 2 |},
      [Some sv; Some i1].
    subst h1. unfold shared.Heap in *. cbn [shared.it shared.op
      shared.array shared.len shared.cap].
    rewrite lookup_app_r, Nat.sub_diag, length_app by lia. cbn.
    repeat split; try lia.
    intros a cells Ha. apply lookup_app_l_Some, Ha. }
  set (r := shared.Append_all grow _ its h1) in *.
  assert (Hframe : forall j v p,
             shared.read j h v = Some p ->
             shared.read j (snd r) v = Some p).
  { intros j v p. apply read_frame; [lia | exact Hold]. }
  split; [|exact Hframe].
  unfold shared.read_Stream. rewrite Hit, Hop.
  rewrite (read_multi_Some (S k) (snd r) sl arr
             (StreamIterator (Some p0) None :: p1 :: ps) Harr Hwf).
  - cbn [mbind option_bind fold_left]. unfold shared.mkContents. f_equal.
    rewrite (Append_not_multi (NewStream p0) p1).
    + change (fold_left Append ps
                {| it := Some (multiIterator
                                 [Stream_as_Iterator (NewStream p0); p1]);
                   op := op (NewStream p0) |})
        with (fold_left Append ps
                {| it := Some (multiIterator
                                 [StreamIterator (Some p0) None; p1]);
                   op := None |}).
      rewrite fold_Append_multi. reflexivity.
    + cbn. intros p [= <-]. apply (read_not_multi k h i0 p0 Hi0 Hp0).
  - rewrite Hvs. apply Forall2_fmap_l. cbn [app].
    constructor; [|constructor].
    + cbn [compose mbind option_bind]. subst sv.
      rewrite read_Stream_value, (Hframe k i0 p0 Hp0). reflexivity.
    + cbn [compose mbind option_bind].
      apply (read_more_fuel k); [lia | apply Hframe, Hp1].
    + eapply Forall2_impl; [exact Hps|]. intros i p Hp.
      cbn [compose mbind option_bind].
      apply (read_more_fuel k); [lia | apply Hframe, Hp].
Qed.

(** X30. For every stream [s] of the heap, every iterator [i] and
    whatever capacity the runtime chooses: after [s.Append(i)] the
    result holds the iterators of [s] and then [i], with the operator
    of [s] kept, all read in the heap as the call leaves it. When the
    call has no room to write in place ([s] holds no [multiIterator],
    or one whose slice is full) it allocates, and every iterator of
    the heap reads after the call as it did before. *)
Theorem Append_reads s i h k (before : shared.Contents Document) :
  shared.read_Stream k h s = Some before ->
  (forall (ps : shared.Contents Document) (pi : Iterator Document),
     shared.read_Stream k (snd (shared.Append grow s i h)) s = Some ps ->
     shared.read k (snd (shared.Append grow s i h)) i = Some pi ->
     shared.read_Stream (S (S k)) (snd (shared.Append grow s i h))
       (fst (shared.Append grow s i h))
     = Some (Append ps pi)) /\
  ((forall mr, shared.it s = Some (shared.multiValue mr) ->
               (shared.cap mr <= shared.len mr)%nat) ->
   forall j v p,
     shared.read j h v = Some p ->
     shared.read j (snd (shared.Append grow s i h)) v = Some p).
Proof.
  intros Hbefore. split.
  - intros ps pi. apply (Append_reads_after s i h k before), Hbefore.
  - intros Hfull j v p. apply read_frame; [lia|].
    intros a cells Ha. unfold shared.Append.
    destruct (shared.it s) as [[rr|its o|mr]|] eqn:Hit; cbn [snd];
      try (apply lookup_app_l_Some, Ha).
    specialize (Hfull mr eq_refl). unfold shared.append.
    destruct (Nat.ltb_spec (shared.len mr) (shared.cap mr)) as [Hlt|_];
      [lia|].
    cbn [snd]. apply lookup_app_l_Some, Ha.
Qed.

(** X9. For every iterator [i0] that is no [multiIterator], every
    list of iterators of the heap and whatever capacity the runtime
    chooses: [NewStream(i0).Append(i1).Append(i2)...], each [Append]
    called on the result of the one before, is a stream that iterates
    [i0] and then the appended iterators in order, each from the
    state the one before left, and stops at the first that returns an
    error, which it returns; and every iterator of the heap reads
    after the calls as it did before. The condition is in the chain:
    an [Append] on a stream appended to before can overwrite the
    iterator that the earlier call added
    ([Append_shares_the_array]). *)
Theorem Append_chain (i0 : shared.Value Document)
    (its : list (shared.Value Document)) h k
    (p0 : Iterator Document) (ps : list (Iterator Document)) :
  (forall sl, i0 <> shared.multiValue sl) ->
  shared.read k h i0 = Some p0 ->
  Forall2 (fun i p => shared.read k h i = Some p) its ps ->
  (exists s' : Stream Document,
     shared.read_Stream (S (S k))
       (snd (shared.Append_all grow (shared.NewStream i0) its h))
       (fst (shared.Append_all grow (shared.NewStream i0) its h))
     = Some s' /\
     forall (S : Type) (fn : Document -> S -> S * error) (st : S),
       Stream_Iterate s' fn st
       = range_until (fun x => Iterate x fn) (p0 :: ps) st) /\
  (forall j v p,
     shared.read j h v = Some p ->
     shared.read j
       (snd (shared.Append_all grow (shared.NewStream i0) its h)) v
     = Some p).
Proof.
  intros Hi0 Hp0 Hps.
  destruct (Append_chain_heap i0 its h k p0 ps Hi0 Hp0 Hps)
    as [Hread Hframe].
  split; [|exact Hframe].
  exists (fold_left Append ps (NewStream p0)). split; [exact Hread|].
  intros S fn st. apply Append_fold_Iterate.
Qed.

End SharedFacts.

(** Two calls of [Append] on the same stream share its array. [s2] has
    three iterators in an array of four cells; [s3 := s2.Append(4)]
    writes the fourth cell and passes [1], [2], [3], [4]; a second
    [s2.Append(5)] writes the same cell, and [s3] passes [5] for
    [4]. *)
Example Append_shares_the_array :
  let one := shared.NewStream (shared.NewIterator [1%nat]) in
  let r1 := shared.Append samples.double one (shared.NewIterator [2%nat]) [] in
  let r2 :=
    shared.Append samples.double (fst r1) (shared.NewIterator [3%nat])
      (snd r1) in
  let r3 :=
    shared.Append samples.double (fst r2) (shared.NewIterator [4%nat])
      (snd r2) in
  let r4 :=
    shared.Append samples.double (fst r2) (shared.NewIterator [5%nat])
      (snd r3) in
  (collect ∘ Stream_as_Iterator) <$> shared.read_Stream 4 (snd r3) (fst r3)
    = Some ([1; 2; 3; 4]%nat, None) /\
  (collect ∘ Stream_as_Iterator) <$> shared.read_Stream 4 (snd r4) (fst r3)
    = Some ([1; 2; 3; 5]%nat, None) /\
  (collect ∘ Stream_as_Iterator) <$> shared.read_Stream 4 (snd r4) (fst r4)
    = Some ([1; 2; 3; 5]%nat, None).
Proof. repeat split; reflexivity. Qed.

(** The third [Append] of the chain above writes in place; the second
    finds the slice full and allocates. *)
Lemma Append_reads_witness :
  let one := shared.NewStream (shared.NewIterator [1%nat]) in
  let r1 := shared.Append samples.double one (shared.NewIterator [2%nat]) [] in
  let r2 :=
    shared.Append samples.double (fst r1) (shared.NewIterator [3%nat])
      (snd r1) in
  let r3 :=
    shared.Append samples.double (fst r2) (shared.NewIterator [4%nat])
      (snd r2) in
  (collect ∘ Stream_as_Iterator) <$> shared.read_Stream 5 (snd r3) (fst r3)
    = Some ([1; 2; 3; 4]%nat, None) /\
  shared.read 4 (snd r2) (shared.Stream_as_Value (fst r1))
    = Some (StreamIterator
              (Some (multiIterator
                       [StreamIterator (Some (documentsIterator [1%nat])) None;
                        documentsIterator [2%nat]])) None).
Proof.
  cbv zeta.
  set (r1 := shared.Append samples.double
               (shared.NewStream (shared.NewIterator [1%nat]))
               (shared.NewIterator [2%nat]) []).
  set (r2 := shared.Append samples.double (fst r1)
               (shared.NewIterator [3%nat]) (snd r1)).
  split.
  - destruct (Append_reads samples.double (fst r2)
                (shared.NewIterator [4%nat]) (snd r2) 3
                {| it := Some (multiIterator
                                 [StreamIterator
                                    (Some (documentsIterator [1%nat])) None;
                                  documentsIterator [2%nat];
                                  documentsIterator [3%nat]]);
                   op := None |} eq_refl) as [Hreads _].
    rewrite (Hreads _ _ eq_refl eq_refl). reflexivity.
  - destruct (Append_reads samples.double (fst r1)
                (shared.NewIterator [3%nat]) (snd r1) 3
                {| it := Some (multiIterator
                                 [StreamIterator
                                    (Some (documentsIterator [1%nat])) None;
                                  documentsIterator [2%nat]]);
                   op := None |} eq_refl) as [_ Hframe].
    apply Hframe; [intros mr [= <-]; cbn; lia | reflexivity].
Defined.

Lemma Append_chain_witness :
  (exists s' : Stream nat,
     shared.read_Stream 3
       (snd (shared.Append_all samples.double
               (shared.NewStream (shared.NewIterator [1%nat]))
               [shared.NewIterator [2%nat]; shared.NewIterator [3%nat];
                shared.NewIterator [4%nat]] []))
       (fst (shared.Append_all samples.double
               (shared.NewStream (shared.NewIterator [1%nat]))
               [shared.NewIterator [2%nat]; shared.NewIterator [3%nat];
                shared.NewIterator [4%nat]] []))
     = Some s' /\
     forall (S : Type) (fn : nat -> S -> S * error) (st : S),
       Stream_Iterate s' fn st
       = range_until (fun x => Iterate x fn)
           [NewIterator [1%nat]; NewIterator [2%nat]; NewIterator [3%nat];
            NewIterator [4%nat]] st) /\
  (forall j v p,
     shared.read j [] v = Some p ->
     shared.read j
       (snd (shared.Append_all samples.double
               (shared.NewStream (shared.NewIterator [1%nat]))
               [shared.NewIterator [2%nat]; shared.NewIterator [3%nat];
                shared.NewIterator [4%nat]] [])) v
     = Some p).
Proof.
  apply (Append_chain samples.double (shared.NewIterator [1%nat])
           [shared.NewIterator [2%nat]; shared.NewIterator [3%nat];
            shared.NewIterator [4%nat]] [] 1 (NewIterator [1%nat])
           [NewIterator [2%nat]; NewIterator [3%nat]; NewIterator [4%nat]]).
  - discriminate.
  - reflexivity.
  - repeat constructor.
Defined.
